(** * Lila editor client: connection layer, response display and server launcher

    A shallow embedding of the three TypeScript classes of the extension:

    - [LilaClient]  (src/client.ts): the socket owner, its state string, the
      pending-send queue, the session handshake and the inbound decoding;
    - [LilaSession] (the orchestrator): only [handleResponse], the callback it
      registers as the client's [onResponse];
    - [LilaServer]  (the launcher): [start], [stop] and the queries.

    JavaScript runs every callback to completion on one thread, so each public
    method and each event handler is one atomic transition of the model.  What
    the node runtime and the editor do (sockets, timers, terminals, JSON.parse)
    is the environment: it appears as the choice of the next transition and as
    the parameter [JSON_parse]. *)

From Stdlib Require Import Ascii String Floats.
From stdpp Require Import base option list strings pretty.

Open Scope string_scope.
Open Scope list_scope.
Set Warnings "-register-all".

(* ===================================================================== *)
(** ** Part I.  Definitions                                              *)
(* ===================================================================== *)

(** *** JavaScript values and strings, as far as the classes use them *)
Module JS.

(** Strings are kept as their UTF-8 bytes: what [data.toString()] decodes
    and what [socket.write] encodes. *)
Definition byte (n : nat) : ascii := Ascii.ascii_of_nat n.
Definition code (c : ascii) : nat := Ascii.nat_of_ascii c.

Fixpoint bytes (l : list nat) : string :=
  match l with
  | [] => EmptyString
  | n :: l' => String (byte n) (bytes l')
  end.

Definition newline : string := bytes [10].

(** ECMAScript WhiteSpace and LineTerminator code points, UTF-8 encoded:
    these are what [String.prototype.trim] removes. *)
Definition WhiteSpace : list string :=
  [ bytes [9]; bytes [10]; bytes [11]; bytes [12]; bytes [13]; bytes [32];
    bytes [194; 160];                                    (* U+00A0 *)
    bytes [225; 154; 128];                               (* U+1680 *)
    bytes [226; 128; 128]; bytes [226; 128; 129]; bytes [226; 128; 130];
    bytes [226; 128; 131]; bytes [226; 128; 132]; bytes [226; 128; 133];
    bytes [226; 128; 134]; bytes [226; 128; 135]; bytes [226; 128; 136];
    bytes [226; 128; 137]; bytes [226; 128; 138];        (* U+2000..U+200A *)
    bytes [226; 128; 168]; bytes [226; 128; 169];        (* U+2028, U+2029 *)
    bytes [226; 128; 175];                               (* U+202F *)
    bytes [226; 129; 159];                               (* U+205F *)
    bytes [227; 128; 128];                               (* U+3000 *)
    bytes [239; 187; 191] ].                             (* U+FEFF *)

(** The same set as tests on one, two and three leading bytes. *)
Definition ws1 (a : ascii) : bool :=
  let n := code a in (Nat.leb 9 n && Nat.leb n 13) || Nat.eqb n 32.

Definition ws2 (a b : ascii) : bool :=
  Nat.eqb (code a) 194 && Nat.eqb (code b) 160.

Definition ws3 (a b c : ascii) : bool :=
  let x := code a in let y := code b in let z := code c in
  (Nat.eqb x 225 && Nat.eqb y 154 && Nat.eqb z 128)
  || (Nat.eqb x 226 && Nat.eqb y 128
      && ((Nat.leb 128 z && Nat.leb z 138) || Nat.eqb z 168 || Nat.eqb z 169
          || Nat.eqb z 175))
  || (Nat.eqb x 226 && Nat.eqb y 129 && Nat.eqb z 159)
  || (Nat.eqb x 227 && Nat.eqb y 128 && Nat.eqb z 128)
  || (Nat.eqb x 239 && Nat.eqb y 187 && Nat.eqb z 191).

(** Strip white space from the front; [rev] says that the bytes of each
    character arrive last byte first (used on the reversed string). *)
Fixpoint strip (rev : bool) (s : string) : string :=
  match s with
  | EmptyString => s
  | String a r =>
      if ws1 a then strip rev r else
      match r with
      | EmptyString => s
      | String b r2 =>
          if (if rev then ws2 b a else ws2 a b) then strip rev r2 else
          match r2 with
          | EmptyString => s
          | String c r3 =>
              if (if rev then ws3 c b a else ws3 a b c) then strip rev r3
              else s
          end
      end
  end.

Definition trimStart (s : string) : string := strip false s.
Definition trimEnd (s : string) : string :=
  String.rev (strip true (String.rev s)).

(** [String.prototype.trim] *)
Definition trim (s : string) : string := trimEnd (trimStart s).

(** A string made of white space only (possibly empty). *)
Inductive blank : string -> Prop :=
| blank_nil : blank ""
| blank_cons w s : In w WhiteSpace -> blank s -> blank (w +:+ s).

(** Parsed JSON documents; numbers are the binary64 values of JavaScript,
    and the fields of an object are its own properties, each key once. *)
Inductive JSON : Type :=
| JNull
| JBool (b : bool)
| JNumber (x : float)
| JString (s : string)
| JArray (items : list JSON)
| JObject (fields : list (string * JSON)).

(** A JavaScript value read from a property: [None] is [undefined]. *)
Definition value := option JSON.

(** ToBoolean, the test behind [if (v)], [v || d] and [!v]. *)
Definition truthy (v : value) : bool :=
  match v with
  | None | Some JNull => false
  | Some (JBool b) => b
  | Some (JNumber x) => negb (PrimFloat.eqb x 0 || PrimFloat.is_nan x)
  | Some (JString s) => negb (String.eqb s "")
  | Some (JArray _) | Some (JObject _) => true
  end.

Definition truthy_string (s : string) : bool := truthy (Some (JString s)).

Fixpoint assoc (key : string) (fields : list (string * JSON)) : value :=
  match fields with
  | [] => None
  | (k, v) :: rest => if String.eqb k key then Some v else assoc key rest
  end.

(** [v.key] for the keys the extension reads ([status], [message],
    [result]): an own property of an object, [undefined] on any other
    value, and a TypeError on [null]. *)
Definition get (v : JSON) (key : string) : option value :=
  match v with
  | JNull => None
  | JObject fields => Some (assoc key fields)
  | _ => Some None
  end.

(** The same read on a value known not to be [null]. *)
Definition field (v : JSON) (key : string) : value :=
  match get v key with
  | Some x => x
  | None => None
  end.

(** [v === "s"] *)
Definition is_string (v : value) (s : string) : bool :=
  match v with
  | Some (JString t) => String.eqb t s
  | _ => false
  end.

(** [a || d] with a string default. *)
Definition or_else (v : value) (d : string) : value :=
  if truthy v then v else Some (JString d).

(** The string a template literal evaluates to.  The conversions done by
    the runtime stay symbolic: [Interp v] is ToString of [v] and
    [Stringify v] is [JSON.stringify(v, null, 2)]. *)
Inductive piece : Type :=
| Lit (s : string)
| Interp (v : value)
| Stringify (v : value).

Definition template := list piece.

(** ToString of a parsed document, as a template literal applies it, throws
    a TypeError exactly when it reaches an object with an own property
    [toString]: no parsed value is callable, and [Object.prototype.valueOf]
    returns the object.  An array is joined, which applies ToString to each
    element that is not [null]. *)
Fixpoint toString_throws (v : JSON) : bool :=
  match v with
  | JObject fields =>
      match assoc "toString" fields with
      | Some _ => true
      | None => false
      end
  | JArray items => existsb toString_throws items
  | JNull | JBool _ | JNumber _ | JString _ => false
  end.

(** The same on a value read from a property; [undefined] converts. *)
Definition throws (v : value) : bool :=
  match v with
  | Some j => toString_throws j
  | None => false
  end.

(** A callback either returns or throws; the effects made before a throw
    stay. *)
Inductive outcome (S : Type) : Type :=
| Done (s : S)
| Thrown (s : S).
Arguments Done {S} s.
Arguments Thrown {S} s.

Definition after {S} (o : outcome S) : S :=
  match o with Done s | Thrown s => s end.

End JS.

(** *** [LilaClient] (src/client.ts) *)
Module LilaClient.
Import JS.

(** The connection states are the strings the class assigns. *)
Definition disconnected : string := "disconnected".
Definition connecting : string := "connecting".
Definition connected : string := "connected".
Definition error : string := "error".

(** [LilaClientOptions].  The two callbacks act on the caller's own state
    [H]; they do not call back into the client (the orchestrator's
    [onStateChange] only reads [getState()]). *)
Record Options (H : Type) : Type := mkOptions {
  host : string;
  port : Z;
  onResponse : option (JSON -> H -> outcome H);
  onStateChange : option (string -> H -> H)
}.
Arguments mkOptions {H}.
Arguments host {H}.
Arguments port {H}.
Arguments onResponse {H}.
Arguments onStateChange {H}.

(** What one pass through the promise body of [connect] creates: the
    socket of [net.createConnection], the [resolve] of the promise and the
    [setTimeout] timer.  They are numbered together, in creation order. *)
Record Attempt : Type := mkAttempt {
  destroyed : bool;          (* socket.destroyed *)
  established : bool;        (* the connect callback has run *)
  written : list string;     (* the arguments of socket.write, in order *)
  errorPending : bool;       (* an 'error' event is still to be emitted *)
  closePending : bool;       (* a 'close' event is still to be emitted *)
  settled : option bool;     (* the first resolve(b), if any *)
  timer : option Z           (* the armed timer and its delay in ms *)
}.

Definition fresh : Attempt :=
  mkAttempt false false [] false false None (Some 5000%Z).

(** [socket.destroy()]: nothing on a destroyed socket, else the socket is
    destroyed at once and its 'close' event is emitted later. *)
Definition destroy (a : Attempt) : Attempt :=
  if destroyed a then a
  else mkAttempt true (established a) (written a) (errorPending a) true
                 (settled a) (timer a).

(** The runtime tearing a socket down (refused or lost connection, peer
    closing): [destroy(err)], which also schedules an 'error' event when
    there is an error. *)
Definition teardown (err : bool) (a : Attempt) : Attempt :=
  if destroyed a then a
  else mkAttempt true (established a) (written a) err true
                 (settled a) (timer a).

(** [socket.write(s)] *)
Definition write (s : string) (a : Attempt) : Attempt :=
  mkAttempt (destroyed a) (established a) (written a ++ [s])
            (errorPending a) (closePending a) (settled a) (timer a).

(** [resolve(b)]: only the first call settles the promise. *)
Definition resolve (b : bool) (a : Attempt) : Attempt :=
  mkAttempt (destroyed a) (established a) (written a) (errorPending a)
            (closePending a)
            (match settled a with Some r => Some r | None => Some b end)
            (timer a).

Definition set_established (a : Attempt) : Attempt :=
  mkAttempt (destroyed a) true (written a) (errorPending a)
            (closePending a) (settled a) (timer a).

Definition clear_error (a : Attempt) : Attempt :=
  mkAttempt (destroyed a) (established a) (written a) false
            (closePending a) (settled a) (timer a).

Definition clear_close (a : Attempt) : Attempt :=
  mkAttempt (destroyed a) (established a) (written a) (errorPending a)
            false (settled a) (timer a).

Definition clear_timer (a : Attempt) : Attempt :=
  mkAttempt (destroyed a) (established a) (written a) (errorPending a)
            (closePending a) (settled a) None.

(** Several writes in a row, and a payload as the line [send] writes. *)
Definition write_all (l : list string) (a : Attempt) : Attempt :=
  mkAttempt (destroyed a) (established a) (written a ++ l)
            (errorPending a) (closePending a) (settled a) (timer a).

Definition line (p : string) : string := p +:+ newline.

(** The handshake line of the session [id]. *)
Definition handshake (id : string) : string := line ("@session " +:+ id).

(** What the connect callback makes of its attempt when the handle is
    live and [q] is queued. *)
Definition opened (id : string) (q : list string) (a : Attempt) : Attempt :=
  resolve true
    (write_all (handshake id :: map line (List.filter truthy_string q))
               (set_established a)).

(** The instance with everything it reaches: its fields, the sockets,
    promises and timers it has created, and the state of its callbacks. *)
Record World (H : Type) : Type := mkWorld {
  options : Options H;
  socket : option nat;             (* this.socket, an index in attempts *)
  state : string;                  (* this.state *)
  sessionId : string;              (* this.sessionId *)
  messageQueue : list string;      (* this.messageQueue *)
  attempts : list Attempt;
  outside : H
}.
Arguments mkWorld {H}.
Arguments options {H}.
Arguments socket {H}.
Arguments state {H}.
Arguments sessionId {H}.
Arguments messageQueue {H}.
Arguments attempts {H}.
Arguments outside {H}.

Section Methods.
Context {H : Type}.
#[local] Abbreviation World := (World H).

(** [new LilaClient(options)]; [now] is the value of [Date.now()]. *)
Definition create (opts : Options H) (now : N) (h : H) : World :=
  mkWorld opts None disconnected (pretty now) [] [] h.

Definition with_socket (s : option nat) (w : World) : World :=
  mkWorld (options w) s (state w) (sessionId w) (messageQueue w)
          (attempts w) (outside w).

Definition with_queue (q : list string) (w : World) : World :=
  mkWorld (options w) (socket w) (state w) (sessionId w) q
          (attempts w) (outside w).

Definition with_attempts (l : list Attempt) (w : World) : World :=
  mkWorld (options w) (socket w) (state w) (sessionId w) (messageQueue w)
          l (outside w).

Definition with_outside (h : H) (w : World) : World :=
  mkWorld (options w) (socket w) (state w) (sessionId w) (messageQueue w)
          (attempts w) h.

(** Apply [f] to attempt [k]. *)
Definition on_attempt (k : nat) (f : Attempt -> Attempt) (w : World) : World :=
  with_attempts (alter f k (attempts w)) w.

(** [this.socket && !this.socket.destroyed]: the live handle, if any. *)
Definition live (w : World) : option nat :=
  match socket w with
  | Some k =>
      match attempts w !! k with
      | Some a => if destroyed a then None else Some k
      | None => None
      end
  | None => None
  end.

(** [setState] *)
Definition setState (s : string) (w : World) : World :=
  let w1 := mkWorld (options w) (socket w) s (sessionId w)
                    (messageQueue w) (attempts w) (outside w) in
  match onStateChange (options w) with
  | Some f => with_outside (f s (outside w1)) w1
  | None => w1
  end.

(** [send] *)
Definition send (code : string) (w : World) : World :=
  match live w with
  | None => with_queue (messageQueue w ++ [code]) w
  | Some k => on_attempt k (write (code +:+ newline)) w
  end.

(** [setupSession] *)
Definition setupSession (w : World) : World :=
  match live w with
  | Some k =>
      on_attempt k (write ("@session " +:+ sessionId w +:+ newline)) w
  | None => w
  end.

(** [flushQueue].  The loop of the source need not end ([send] puts the
    entry back when there is no live handle), so it runs on [fuel]:
    [None] is a loop still running when the fuel is gone. *)
Fixpoint flushQueue (fuel : nat) (w : World) : option World :=
  match messageQueue w with
  | [] => Some w
  | code :: rest =>
      match fuel with
      | O => None
      | S fuel' =>
          let w1 := with_queue rest w in
          flushQueue fuel' (if truthy_string code then send code w1 else w1)
      end
  end.

(** [isConnected] and [getState] *)
Definition isConnected (w : World) : bool :=
  String.eqb (state w) connected && bool_decide (is_Some (live w)).

Definition getState (w : World) : string := state w.

(** [this.socket?.destroy()] *)
Definition destroySocket (w : World) : World :=
  match socket w with
  | Some k => on_attempt k destroy w
  | None => w
  end.

(** [disconnect] *)
Definition disconnect (w : World) : World :=
  let w1 :=
    match socket w with
    | Some _ => with_socket None (destroySocket w)
    | None => w
    end in
  setState disconnected w1.

(** [net.createConnection] throws ERR_SOCKET_BAD_PORT at once for a port
    outside 0..65535. *)
Definition valid_port (p : Z) : bool := (0 <=? p)%Z && (p <=? 65535)%Z.

(** What a call of [connect] hands back: a promise already resolved, the
    promise of the attempt it has started, or a promise rejected by what
    the promise body has thrown. *)
Inductive Promise : Type :=
| Resolved (b : bool)
| Awaiting (k : nat)
| Rejected.

(** [connect], up to the end of the promise body: the callbacks it
    registers are the handlers below.  When [net.createConnection] throws,
    [this.socket] is not assigned, no listener and no timer is set, and
    the promise is rejected; the state has been set before. *)
Definition connect (w : World) : World * Promise :=
  match live w with
  | Some _ => (w, Resolved true)
  | None =>
      let w1 := setState connecting w in
      if valid_port (port (options w1)) then
        let k := length (attempts w1) in
        (with_socket (Some k) (with_attempts (attempts w1 ++ [fresh]) w1),
         Awaiting k)
      else (w1, Rejected)
  end.

(** The connect callback of attempt [k]. *)
Definition onConnect (fuel : nat) (k : nat) (w : World) : option World :=
  let w1 := setState connected w in
  let w2 := setupSession w1 in
  match flushQueue fuel w2 with
  | Some w3 => Some (on_attempt k (resolve true) w3)
  | None => None
  end.

(** The 'error' listener of attempt [k] ([console.error] is not kept). *)
Definition onError (k : nat) (w : World) : World :=
  on_attempt k (resolve false) (setState error w).

(** The 'close' listener. *)
Definition onClose (w : World) : World := setState disconnected w.

(** The timer callback of attempt [k]. *)
Definition onTimeout (k : nat) (w : World) : World :=
  if String.eqb (state w) connecting then
    on_attempt k (resolve false) (setState error (destroySocket w))
  else w.

Section Inbound.
(** [JSON.parse]: [None] when it throws. *)
Variable JSON_parse : string -> option JSON.

Definition raw (data : string) : JSON :=
  JObject [("status", JString "raw"); ("data", JString data)].

Definition deliver (v : JSON) (h : H) (opts : Options H) : outcome H :=
  match onResponse opts with
  | Some f => f v h
  | None => Done h
  end.

(** [!data || data.trim() === ""] *)
Definition ignored (data : string) : bool :=
  negb (truthy_string data) || String.eqb (trim data) "".

(** [handleData]: the handler runs inside the [try], so the [catch]
    also takes what the handler throws. *)
Definition handleData (data : string) (w : World) : outcome World :=
  if ignored data then Done w
  else
    let attempt :=
      match JSON_parse data with
      | Some response => deliver response (outside w) (options w)
      | None => Thrown (outside w)
      end in
    match attempt with
    | Done h => Done (with_outside h w)
    | Thrown h =>
        match deliver (raw data) h (options w) with
        | Done h' => Done (with_outside h' w)
        | Thrown h' => Thrown (with_outside h' w)
        end
    end.

(** The transitions: the three public methods, the handlers the class
    registers on each socket and timer, and the runtime tearing a handle
    down.  Node marks a socket destroyed at once and emits its 'error' and
    'close' events later, so [Teardown] and the two listeners are separate
    transitions: in between, [socket.destroyed] is already true and the
    state has not been touched. *)
Inductive Op : Type :=
| Connect
| Disconnect
| Send (code : string)
| SocketConnect (k : nat)
| SocketData (k : nat) (chunk : string)
| SocketError (k : nat)
| SocketClose (k : nat)
| TimerFires (k : nat)
| Teardown (k : nat) (err : bool).

(** One transition; [None] when the runtime cannot make it happen: a
    callback runs only for a socket that is in the state the event belongs
    to, and a timer fires once.  The connect callback gets fuel for one
    round of its loop per queued entry and one to spare, which is what the
    loop takes on a live handle.  An exception that leaves [handleData]
    ends the 'data' listener; what the handler did before stays. *)
Definition step (op : Op) (w : World) : option World :=
  match op with
  | Connect => Some (fst (connect w))
  | Disconnect => Some (disconnect w)
  | Send code => Some (send code w)
  | SocketConnect k =>
      match attempts w !! k with
      | Some a =>
          if destroyed a || established a then None
          else onConnect (S (length (messageQueue w))) k
                         (on_attempt k set_established w)
      | None => None
      end
  | SocketData k chunk =>
      match attempts w !! k with
      | Some a =>
          if established a && negb (destroyed a)
          then Some (after (handleData chunk w))
          else None
      | None => None
      end
  | SocketError k =>
      match attempts w !! k with
      | Some a =>
          if errorPending a
          then Some (onError k (on_attempt k clear_error w))
          else None
      | None => None
      end
  | SocketClose k =>
      match attempts w !! k with
      | Some a =>
          if closePending a && negb (errorPending a)
          then Some (onClose (on_attempt k clear_close w))
          else None
      | None => None
      end
  | TimerFires k =>
      match attempts w !! k with
      | Some a =>
          match timer a with
          | Some _ => Some (onTimeout k (on_attempt k clear_timer w))
          | None => None
          end
      | None => None
      end
  | Teardown k err =>
      match attempts w !! k with
      | Some a =>
          if destroyed a then None
          else Some (on_attempt k (teardown err) w)
      | None => None
      end
  end.

Fixpoint run (ops : list Op) (w : World) : option World :=
  match ops with
  | [] => Some w
  | op :: rest =>
      match step op w with
      | Some w' => run rest w'
      | None => None
      end
  end.

(** The worlds a fresh instance can get to. *)
Inductive reachable : World -> Prop :=
| reach_create opts now h : reachable (create opts now h)
| reach_step op w w' : reachable w -> step op w = Some w' -> reachable w'.

End Inbound.
End Methods.

(** *** Invariants, for the proofs *)

(** An attempt taken alone: an error is only ever announced on a destroyed
    socket, the promise is resolved [true] exactly when the connect callback
    has run, [false] only once the socket is destroyed, and the timer is the
    5 second one. *)
Record sound (a : Attempt) : Prop := {
  sound_error : errorPending a = true -> destroyed a = true;
  sound_true : settled a = Some true <-> established a = true;
  sound_false : settled a = Some false -> destroyed a = true;
  sound_timer : forall d, timer a = Some d -> d = 5000%Z
}.

(** The world: every socket but the current one is destroyed, every attempt
    is sound, and nothing is queued while connected on a live handle. *)
Record inv {H : Type} (w : World H) : Prop := {
  inv_current : forall j a,
    attempts w !! j = Some a -> destroyed a = false -> socket w = Some j;
  inv_sound : forall j a, attempts w !! j = Some a -> sound a;
  inv_queue : isConnected w = true -> messageQueue w = []
}.

(** A call nothing can resolve any more: its socket is destroyed, no error
    event is due, its timer has fired, and the promise is still open. *)
Definition abandoned (a : Attempt) : Prop :=
  destroyed a = true /\ errorPending a = false /\ timer a = None /\
  settled a = None.

(** [send], [setupSession] and [flushQueue] do not reach the state, the
    callbacks, the options or the session id. *)
Definition same_face {H : Type} (w w' : World H) : Prop :=
  state w' = state w /\ outside w' = outside w /\ options w' = options w /\
  sessionId w' = sessionId w.

End LilaClient.

(** *** [LilaSession]: the response callback of the orchestrator *)
Module LilaSession.
Import JS.

(** What the callback does to the editor: [outputChannel.appendLine] and
    [vscode.window.showErrorMessage], in call order. *)
Inductive Ui : Type :=
| AppendLine (text : template)
| ShowErrorMessage (text : template).

(** [handleResponse].  The first property read throws on [null]; after it
    the other reads cannot.  A template literal is evaluated before the
    call it is the argument of, so a ToString that throws leaves that call
    undone; [JSON.stringify] of a parsed document does not throw. *)
Definition handleResponse (response : JSON) (ui : list Ui) : outcome (list Ui) :=
  match get response "status", get response "message", get response "result" with
  | Some status, Some message, Some result =>
      if is_string status "success" then
        if throws (or_else message "Success") then Thrown ui
        else
          Done (ui ++ [AppendLine [Lit "✓ "; Interp (or_else message "Success")]])
      else if is_string status "error" then
        if throws (or_else message "Unknown error") then Thrown ui
        else
          let ui1 :=
            ui ++ [AppendLine [Lit "✗ ERROR: ";
                               Interp (or_else message "Unknown error")]] in
          if throws message then Thrown ui1
          else Done (ui1 ++ [ShowErrorMessage [Lit "Lila: "; Interp message]])
      else if truthy result then
        Done (ui ++ [AppendLine [Lit "Result: "; Stringify result]])
      else
        Done (ui ++ [AppendLine [Lit "Response: "; Stringify (Some response)]])
  | _, _, _ => Thrown ui
  end.

(** The documents, [null] apart, on which [handleResponse] throws: the
    [status] is "success" or "error" and ToString of the message throws. *)
Definition unprintable (v : JSON) : bool :=
  (is_string (field v "status") "success"
   || is_string (field v "status") "error")
  && throws (field v "message").

(** The five kinds of response of the data model, and what the session
    shows for each: a raw chunk reaches [handleResponse] as the object
    [LilaClient.raw] and is shown like any other unclassified document. *)
Inductive Response : Type :=
| Success (message : value)
| ErrorResult (message : value)
| ValueResult (result : value)
| Raw (text : string)
| Unclassified (payload : JSON).

Definition display (r : Response) : list Ui :=
  match r with
  | Success m => [AppendLine [Lit "✓ "; Interp (or_else m "Success")]]
  | ErrorResult m =>
      [AppendLine [Lit "✗ ERROR: "; Interp (or_else m "Unknown error")];
       ShowErrorMessage [Lit "Lila: "; Interp m]]
  | ValueResult x => [AppendLine [Lit "Result: "; Stringify x]]
  | Raw text =>
      [AppendLine [Lit "Response: "; Stringify (Some (LilaClient.raw text))]]
  | Unclassified v => [AppendLine [Lit "Response: "; Stringify (Some v)]]
  end.

(** The classification as the specification words it, for comparison with
    [handleResponse]: [status] equal to "success", [status] equal to
    "error", presence of a [result] field, anything else. *)
Definition classify_as_specified (v : JSON) : Response :=
  if is_string (field v "status") "success" then Success (field v "message")
  else if is_string (field v "status") "error" then ErrorResult (field v "message")
  else match field v "result" with
       | Some x => ValueResult (Some x)
       | None => Unclassified v
       end.

(** The options the session builds its client with; [onStateChange] only
    refreshes the status bar, which is not part of [Ui]. *)
Definition clientOptions (host : string) (port : Z) : LilaClient.Options (list Ui) :=
  LilaClient.mkOptions host port (Some handleResponse) (Some (fun _ ui => ui)).

End LilaSession.

(** *** [LilaServer]: the launcher *)
Module LilaServer.
Import JS.

Definition stopped : string := "stopped".
Definition starting : string := "starting".
Definition running : string := "running".
Definition error : string := "error".

(** A terminal of the editor, as [createTerminal], [show] and [dispose]
    leave it. *)
Record Terminal : Type := mkTerminal {
  name : string;
  shellPath : string;
  shows : nat;
  disposed : bool
}.

(** A [child_process.ChildProcess] is only ever a handle here. *)
Definition ChildProcess := nat.

(** The instance, the terminals the editor has created for it, the
    processes it has killed and the error messages it has shown.
    [assigned] is a ghost field: every value given to [state], in order. *)
Record Server : Type := mkServer {
  serverPath : string;
  process : option ChildProcess;
  state : string;
  terminal : option nat;
  terminals : list Terminal;
  killed : list ChildProcess;
  messages : list template;
  assigned : list string
}.

Definition create (path : string) : Server :=
  mkServer path None stopped None [] [] [] [].

(** [setState] *)
Definition setState (st : string) (s : Server) : Server :=
  mkServer (serverPath s) (process s) st (terminal s) (terminals s)
           (killed s) (messages s) (assigned s ++ [st]).

(** [this.terminal = vscode.window.createTerminal({...})] *)
Definition createTerminal (s : Server) : Server :=
  mkServer (serverPath s) (process s) (state s)
           (Some (length (terminals s)))
           (terminals s ++ [mkTerminal "Lila Server" (serverPath s) 0 false])
           (killed s) (messages s) (assigned s).

Definition show (t : Terminal) : Terminal :=
  mkTerminal (name t) (shellPath t) (S (shows t)) (disposed t).

Definition dispose (t : Terminal) : Terminal :=
  mkTerminal (name t) (shellPath t) (shows t) true.

Definition on_terminal (k : nat) (f : Terminal -> Terminal) (s : Server) : Server :=
  mkServer (serverPath s) (process s) (state s) (terminal s)
           (alter f k (terminals s)) (killed s) (messages s) (assigned s).

Definition showErrorMessage (text : template) (s : Server) : Server :=
  mkServer (serverPath s) (process s) (state s) (terminal s) (terminals s)
           (killed s) (messages s ++ [text]) (assigned s).

(** What the editor does with the launch: both calls return, or one of
    them throws ([thrown] is the text of the exception). *)
Inductive Launch : Type :=
| Launched
| CreateTerminalThrows (thrown : string)
| ShowThrows (thrown : string).

Definition failed (thrown : string) (s : Server) : Server * bool :=
  (setState error
     (showErrorMessage [Lit "Failed to start Lila server: "; Lit thrown] s),
   false).

(** [start]; the boolean is what the promise resolves to. *)
Definition start (l : Launch) (s : Server) : Server * bool :=
  match process s with
  | Some _ => (s, true)
  | None =>
      let s1 := setState starting s in
      match l with
      | CreateTerminalThrows e => failed e s1
      | ShowThrows e => failed e (createTerminal s1)
      | Launched =>
          let s2 := createTerminal s1 in
          let s3 := match terminal s2 with
                    | Some k => on_terminal k show s2
                    | None => s2
                    end in
          (setState running s3, true)
      end
  end.

(** [stop] *)
Definition stop (s : Server) : Server :=
  let s1 :=
    match terminal s with
    | Some k =>
        let s' := on_terminal k dispose s in
        mkServer (serverPath s') (process s') (state s') None (terminals s')
                 (killed s') (messages s') (assigned s')
    | None => s
    end in
  let s2 :=
    match process s1 with
    | Some p =>
        mkServer (serverPath s1) None (state s1) (terminal s1) (terminals s1)
                 (killed s1 ++ [p]) (messages s1) (assigned s1)
    | None => s1
    end in
  setState stopped s2.

Definition getState (s : Server) : string := state s.
Definition isRunning (s : Server) : bool := String.eqb (state s) running.

(** [showTerminal] *)
Definition showTerminal (s : Server) : Server :=
  match terminal s with
  | Some k => on_terminal k show s
  | None => s
  end.

Inductive Op : Type :=
| Start (l : Launch)
| Stop
| ShowTerminal.

Definition step (op : Op) (s : Server) : Server :=
  match op with
  | Start l => fst (start l s)
  | Stop => stop s
  | ShowTerminal => showTerminal s
  end.

Definition run (ops : list Op) (s : Server) : Server :=
  fold_left (fun s op => step op s) ops s.

Inductive reachable : Server -> Prop :=
| reach_create path : reachable (create path)
| reach_step op s : reachable s -> reachable (step op s).

End LilaServer.

(** *** Concrete instances, for the worked traces *)
Module Scenario.
Import JS LilaClient.

(** A client whose observer keeps the states it is told, created at
    [Date.now() = 1700000000000]. *)
Definition observed : Options (list string) :=
  mkOptions "127.0.0.1" 9090 None (Some (fun s told => told ++ [s])).

Definition client : World (list string) := create observed 1700000000000 [].

(** The same client configured with a port [net.createConnection] does
    not take. *)
Definition misconfigured : World (list string) :=
  create (mkOptions "127.0.0.1" 65536 None (Some (fun s told => told ++ [s])))
         1700000000000 [].

Definition id : string := "1700000000000".

(** Traces without inbound data do not depend on [JSON.parse]. *)
Definition unparsed : string -> option JSON := fun _ => None.

(** What a trace leaves: the state, the queue, and per attempt whether the
    socket is destroyed, what was written to it and how the promise is
    settled. *)
Definition view {H} (o : option (World H))
  : option (string * list string * list (bool * list string * option bool)) :=
  match o with
  | Some w =>
      Some (state w, messageQueue w,
            map (fun a => (destroyed a, written a, settled a)) (attempts w))
  | None => None
  end.

Definition trace (ops : list Op) :=
  view (run unparsed ops client).

(** The client while its first handle is connecting, and once it is
    established. *)
Definition pending : World (list string) := fst (connect client).

Definition online : World (list string) :=
  default pending (step unparsed (SocketConnect 0) pending).

(** The documents of the decoding examples and what [JSON.parse] returns
    on them; [parse] throws on every other chunk used here. *)
Definition dq : string := bytes [34].

Definition success_text : string :=
  "{" +:+ dq +:+ "status" +:+ dq +:+ ":" +:+ dq +:+ "success" +:+ dq +:+ ","
      +:+ dq +:+ "message" +:+ dq +:+ ":" +:+ dq +:+ "ok" +:+ dq +:+ "}".
Definition success_doc : JSON :=
  JObject [("status", JString "success"); ("message", JString "ok")].

Definition zero_text : string := "{" +:+ dq +:+ "result" +:+ dq +:+ ":0}".
Definition zero_doc : JSON := JObject [("result", JNumber 0)].

(** An error document whose message has an own property [toString]. *)
Definition odd_text : string :=
  "{" +:+ dq +:+ "status" +:+ dq +:+ ":" +:+ dq +:+ "error" +:+ dq +:+ ","
      +:+ dq +:+ "message" +:+ dq +:+ ":{"
      +:+ dq +:+ "toString" +:+ dq +:+ ":1}}".
Definition odd_doc : JSON :=
  JObject [("status", JString "error");
           ("message", JObject [("toString", JNumber 1)])].

Definition parse (s : string) : option JSON :=
  if String.eqb s success_text then Some success_doc
  else if String.eqb s zero_text then Some zero_doc
  else if String.eqb s odd_text then Some odd_doc
  else if String.eqb s "null" then Some JNull
  else None.

(** A client wired as the session wires it. *)
Definition session : World (list LilaSession.Ui) :=
  create (LilaSession.clientOptions "127.0.0.1" 9090) 1700000000000 [].

End Scenario.

(** *** Vocabulary for the further properties of the client *)
Module LilaClientAux.
Import JS LilaClient.

(** An attempt after some writes and flag changes: still established or
    not as before, with more written after what was written. *)
Definition grown (a a' : Attempt) : Prop :=
  established a' = established a /\ exists l, written a' = written a ++ l.

(** The transitions of a lost connection: the runtime destroys the handle
    with an error, then the 'error' and the 'close' listeners run. *)
Definition lost (k : nat) : list Op :=
  [Teardown k true; SocketError k; SocketClose k].

End LilaClientAux.

(** *** More concrete worlds, for the further properties *)
Module ScenarioMore.
Import JS LilaClient.

(** A payload sent on the new client: it is queued. *)
Definition queued : World (list string) := send "1+1" Scenario.client.

(** A call given up: [connect], then [disconnect] before any answer, the
    'close' event of the socket, and the timer finding nothing to do. *)
Definition given_up : list Op :=
  [Connect; Disconnect; SocketClose 0; TimerFires 0].

Definition hung : World (list string) :=
  default Scenario.client (run Scenario.unparsed given_up Scenario.client).

(** What became of the first attempt there. *)
Definition hung_attempt : Attempt :=
  mkAttempt true false [] false false None None.

(** A launcher started twice. *)
Definition twice : LilaServer.Server :=
  LilaServer.run [LilaServer.Start LilaServer.Launched;
                  LilaServer.Start LilaServer.Launched]
    (LilaServer.create "lila_server").

End ScenarioMore.

(** *** [LilaSession.sendCode] (the orchestrator), between its awaits *)
Module LilaSessionCalls.
Import JS LilaClient LilaSession.

(** What the output channel and the dialogs hold. *)
Definition is_line (u : Ui) : bool :=
  match u with AppendLine _ => true | ShowErrorMessage _ => false end.

Definition is_dialog (u : Ui) : bool :=
  match u with AppendLine _ => false | ShowErrorMessage _ => true end.

(** Where a call of [sendCode] stands: it has returned, it awaits the
    answer to the warning "Not connected to Lila server. Connect now?", it
    awaits the promise of the attempt [connect] has started, or it has
    ended with the exception [connect] was rejected with. *)
Inductive Stage : Type :=
| Finished
| Asking
| Connecting (k : nat)
| Failed.

(** [outputChannel.appendLine(`>>> ${code}`)] *)
Definition log_line (code : string) : Ui :=
  AppendLine [Lit ">>> "; Interp (Some (JString code))].

Definition failed_to_connect : Ui :=
  ShowErrorMessage [Lit "Failed to connect to Lila server"].

(** What a call puts on the output channel before it sends. *)
Definition logged (code : string) (logInput : option bool) : list Ui :=
  match logInput with
  | Some false => []
  | _ => [log_line code]
  end.

(** The end of [sendCode]: the log line unless [options.logInput] is
    [false] ([None] is a call without the option), then [client.send]. *)
Definition transmit (code : string) (logInput : option bool)
    (w : World (list Ui)) : World (list Ui) :=
  let w1 :=
    match logInput with
    | Some false => w
    | _ => with_outside (outside w ++ [log_line code]) w
    end in
  send code w1.

(** [sendCode] from the [await] of [connectClient] on, [connected] being
    what the promise of [connect] was resolved with. *)
Definition resumed (connected : bool) (code : string) (logInput : option bool)
    (w : World (list Ui)) : World (list Ui) :=
  if connected then transmit code logInput w
  else with_outside (outside w ++ [failed_to_connect]) w.

(** [sendCode] up to its first [await]. *)
Definition sendCode (code : string) (logInput : option bool)
    (w : World (list Ui)) : Stage * World (list Ui) :=
  if isConnected w then (Finished, transmit code logInput w)
  else (Asking, w).

(** [sendCode] from the answer to the warning ([None] when it is dismissed)
    up to its next [await].  A promise [connect] hands back resolved is
    awaited without any event of the socket in between; one it hands back
    rejected makes the [await] of [connectClient] throw, and the call ends
    there, before the failure dialog. *)
Definition answered (shouldConnect : option string) (code : string)
    (logInput : option bool) (w : World (list Ui)) : Stage * World (list Ui) :=
  match shouldConnect with
  | Some answer =>
      if String.eqb answer "Connect" then
        match connect w with
        | (w1, Resolved b) => (Finished, resumed b code logInput w1)
        | (w1, Awaiting k) => (Connecting k, w1)
        | (w1, Rejected) => (Failed, w1)
        end
      else (Finished, w)
  | None => (Finished, w)
  end.

End LilaSessionCalls.

(** *** [LilaSession] with its status bar and its launcher *)
Module LilaSessionBar.
Import JS LilaClient.

(** What the session owns besides its client: the output channel with the
    dialogs, the text and the tooltip of the status bar item, and the
    launcher. *)
Record Editor : Type := mkEditor {
  channel : list LilaSession.Ui;
  text : string;
  tooltip : option string;
  server : LilaServer.Server
}.

Definition with_channel (l : list LilaSession.Ui) (e : Editor) : Editor :=
  mkEditor l (text e) (tooltip e) (server e).

Definition with_server (s : LilaServer.Server) (e : Editor) : Editor :=
  mkEditor (channel e) (text e) (tooltip e) s.

(** The icon and the tooltip [updateStatusBar] picks for the two states it
    reads. *)
Definition pick (clientState serverState : string) : string * string :=
  if String.eqb clientState "connected" then
    ("$(check)", "Lila: Connected")
  else if String.eqb serverState "running" then
    ("$(circle-large)", "Lila: Server Running")
  else
    ("$(circle-slash)", "Lila: Disconnected").

(** The body of [updateStatusBar], [clientState] being what
    [this.client.getState()] returns. *)
Definition paint (clientState : string) (e : Editor) : Editor :=
  let serverState := LilaServer.getState (server e) in
  mkEditor (channel e)
           (fst (pick clientState serverState) +:+ " Lila")
           (Some (snd (pick clientState serverState)))
           (server e).

(** [updateStatusBar] *)
Definition updateStatusBar (w : World Editor) : World Editor :=
  with_outside (paint (getState w) (outside w)) w.

(** The [onResponse] callback of the constructor: [handleResponse] on the
    output channel. *)
Definition respond (response : JSON) (e : Editor) : outcome Editor :=
  match LilaSession.handleResponse response (channel e) with
  | Done l => Done (with_channel l e)
  | Thrown l => Thrown (with_channel l e)
  end.

(** The options the constructor gives its client.  The [onStateChange]
    callback drops its argument and calls [updateStatusBar], which reads
    [getState()]: [setState] has just assigned that very argument. *)
Definition clientOptions (host : string) (port : Z) : Options Editor :=
  mkOptions host port (Some respond) (Some paint).

(** The constructor, up to its [updateStatusBar()]; the timer of the
    automatic start is the transition [StartServer] below. *)
Definition create (host : string) (port : Z) (serverPath : string) (now : N)
  : World Editor :=
  updateStatusBar
    (LilaClient.create (clientOptions host port) now
       (mkEditor [] "$(circle-slash) Lila" None
                 (LilaServer.create serverPath))).

Definition on_server (f : LilaServer.Server -> LilaServer.Server)
    (w : World Editor) : World Editor :=
  with_outside (with_server (f (server (outside w))) (outside w)) w.

(** [startServer]: the world, the result, and whether the timer of
    [connectClient] was armed; [autoConnect] is the configuration value
    read. *)
Definition startServer (l : LilaServer.Launch) (autoConnect : bool)
    (w : World Editor) : World Editor * bool * bool :=
  let success := snd (LilaServer.start l (server (outside w))) in
  let w1 := on_server (fun s => fst (LilaServer.start l s)) w in
  (updateStatusBar w1, success, success && autoConnect).

(** [stopServer] *)
Definition stopServer (w : World Editor) : World Editor :=
  updateStatusBar (on_server LilaServer.stop (disconnect w)).

(** [restartServer] *)
Definition restartServer (l : LilaServer.Launch) (autoConnect : bool)
    (w : World Editor) : World Editor * bool * bool :=
  startServer l autoConnect (on_server LilaServer.stop (disconnect w)).

(** [disconnectClient] *)
Definition disconnectClient (w : World Editor) : World Editor :=
  updateStatusBar (disconnect w).

(** The transitions of a session: those of its client ([connectClient]
    starts with [Connect] and [sendCode] ends with [Send]), the commands
    on the launcher, and [updateStatusBar] as [connectClient] calls it
    once the promise of [connect] is settled. *)
Inductive Op : Type :=
| Client (op : LilaClient.Op)
| StartServer (l : LilaServer.Launch) (autoConnect : bool)
| StopServer
| RestartServer (l : LilaServer.Launch) (autoConnect : bool)
| DisconnectClient
| UpdateStatusBar.

Section Steps.
Variable JSON_parse : string -> option JSON.

Definition step (op : Op) (w : World Editor) : option (World Editor) :=
  match op with
  | Client op => LilaClient.step JSON_parse op w
  | StartServer l autoConnect => Some (fst (fst (startServer l autoConnect w)))
  | StopServer => Some (stopServer w)
  | RestartServer l autoConnect =>
      Some (fst (fst (restartServer l autoConnect w)))
  | DisconnectClient => Some (disconnectClient w)
  | UpdateStatusBar => Some (updateStatusBar w)
  end.

Fixpoint run (ops : list Op) (w : World Editor) : option (World Editor) :=
  match ops with
  | [] => Some w
  | op :: rest =>
      match step op w with
      | Some w' => run rest w'
      | None => None
      end
  end.

(** The worlds a new session can get to. *)
Inductive reachable : World Editor -> Prop :=
| reach_create host port serverPath now :
    reachable (create host port serverPath now)
| reach_step op w w' : reachable w -> step op w = Some w' -> reachable w'.

End Steps.

(** The status bar shows what [updateStatusBar] puts there for the client
    state [clientState] and the state of the launcher. *)
Definition synced (clientState : string) (e : Editor) : Prop :=
  text e = fst (pick clientState (LilaServer.state (server e))) +:+ " Lila" /\
  tooltip e = Some (snd (pick clientState (LilaServer.state (server e)))).

Definition in_sync (w : World Editor) : Prop := synced (state w) (outside w).

(** What the callbacks of the client keep: the status bar, and that the
    launcher holds no process. *)
Definition kept (clientState : string) (e : Editor) : Prop :=
  synced clientState e /\ LilaServer.process (server e) = None.

(** The client is wired as the constructor wires it. *)
Definition wired (w : World Editor) : Prop :=
  onResponse (options w) = Some respond /\
  onStateChange (options w) = Some paint.

End LilaSessionBar.

(** *** The client of a session in concrete worlds *)
Module ScenarioSession.
Import JS LilaClient.

(** The client of a session while its first handle is connecting, and
    once it is established. *)
Definition pending : World (list LilaSession.Ui) :=
  fst (connect Scenario.session).

Definition online : World (list LilaSession.Ui) :=
  default pending (step Scenario.parse (SocketConnect 0) pending).

(** An error document and what [JSON.parse] returns on it. *)
Definition error_text : string :=
  "{" +:+ Scenario.dq +:+ "status" +:+ Scenario.dq +:+ ":"
      +:+ Scenario.dq +:+ "error" +:+ Scenario.dq +:+ "}".
Definition error_doc : JSON := JObject [("status", JString "error")].

Definition parse (s : string) : option JSON :=
  if String.eqb s error_text then Some error_doc else Scenario.parse s.

(** A new session, and the same once its launcher is started and its
    client connected. *)
Definition bar : World LilaSessionBar.Editor :=
  LilaSessionBar.create "127.0.0.1" 9090 "lila_server" 1700000000000.

Definition opening : list LilaSessionBar.Op :=
  [LilaSessionBar.StartServer LilaServer.Launched true;
   LilaSessionBar.Client Connect;
   LilaSessionBar.Client (SocketConnect 0);
   LilaSessionBar.UpdateStatusBar].

Definition bar_online : World LilaSessionBar.Editor :=
  default bar (LilaSessionBar.run Scenario.unparsed opening bar).

End ScenarioSession.

(* ===================================================================== *)
(** ** Part II.  Properties                                              *)
(* ===================================================================== *)

(** *** The client: how the methods act on the fields *)
Module ClientFacts.
Import JS LilaClient.

Section Fields.
Context {H : Type}.
Implicit Types (w : World H) (a : Attempt) (k j : nat).

Lemma setState_state s w : state (setState s w) = s.
Proof. unfold setState. by destruct (onStateChange (options w)). Qed.

Lemma setState_socket s w : socket (setState s w) = socket w.
Proof. unfold setState. by destruct (onStateChange (options w)). Qed.

Lemma setState_attempts s w : attempts (setState s w) = attempts w.
Proof. unfold setState. by destruct (onStateChange (options w)). Qed.

Lemma setState_queue s w : messageQueue (setState s w) = messageQueue w.
Proof. unfold setState. by destruct (onStateChange (options w)). Qed.

Lemma setState_sessionId s w : sessionId (setState s w) = sessionId w.
Proof. unfold setState. by destruct (onStateChange (options w)). Qed.

Lemma setState_options s w : options (setState s w) = options w.
Proof. unfold setState. by destruct (onStateChange (options w)). Qed.

Lemma setState_outside s w :
  outside (setState s w) =
  match onStateChange (options w) with
  | Some f => f s (outside w)
  | None => outside w
  end.
Proof. unfold setState. by destruct (onStateChange (options w)). Qed.

Lemma on_attempt_state k f w : state (on_attempt k f w) = state w.
Proof. done. Qed.

Lemma on_attempt_socket k f w : socket (on_attempt k f w) = socket w.
Proof. done. Qed.

Lemma on_attempt_attempts k f w :
  attempts (on_attempt k f w) = alter f k (attempts w).
Proof. done. Qed.

Lemma on_attempt_queue k f w :
  messageQueue (on_attempt k f w) = messageQueue w.
Proof. done. Qed.

Lemma on_attempt_sessionId k f w : sessionId (on_attempt k f w) = sessionId w.
Proof. done. Qed.

Lemma on_attempt_options k f w : options (on_attempt k f w) = options w.
Proof. done. Qed.

Lemma on_attempt_outside k f w : outside (on_attempt k f w) = outside w.
Proof. done. Qed.

(** [live] reads [socket] and the [destroyed] flags only. *)
Lemma live_Some w k :
  live w = Some k <->
  socket w = Some k /\ exists a, attempts w !! k = Some a /\ destroyed a = false.
Proof.
  unfold live. split.
  - destruct (socket w) as [i|]; [|done].
    destruct (attempts w !! i) as [a|] eqn:E; [|done].
    destruct (destroyed a) eqn:D; [done|].
    intros [= <-]. eauto.
  - intros [-> (a & -> & ->)]. done.
Qed.

Lemma live_None w :
  live w = None <->
  forall k a, socket w = Some k -> attempts w !! k = Some a -> destroyed a = true.
Proof.
  unfold live. split.
  - intros E k a Hs Ha. rewrite Hs, Ha in E. by destruct (destroyed a).
  - intros E. destruct (socket w) as [i|]; [|done].
    destruct (attempts w !! i) as [a|] eqn:Ha; [|done].
    by rewrite (E i a eq_refl Ha).
Qed.

Lemma live_ext w w' :
  socket w' = socket w ->
  (forall k, destroyed <$> attempts w' !! k = destroyed <$> attempts w !! k) ->
  live w' = live w.
Proof.
  intros Es Ed. unfold live. rewrite Es.
  destruct (socket w) as [i|]; [|done].
  specialize (Ed i).
  destruct (attempts w' !! i) as [a'|], (attempts w !! i) as [a|];
    simpl in Ed; try done.
  by injection Ed as ->.
Qed.

Lemma lookup_on_attempt k f w j :
  attempts (on_attempt k f w) !! j =
  if decide (k = j) then f <$> attempts w !! j else attempts w !! j.
Proof.
  unfold on_attempt. simpl. rewrite list_lookup_alter.
  by destruct (decide (k = j)) as [->|].
Qed.

(** Changes of an attempt that leave its [destroyed] flag alone do not
    change which handle is live. *)
Lemma live_on_attempt k f w :
  (forall a, destroyed (f a) = destroyed a) ->
  live (on_attempt k f w) = live w.
Proof.
  intros Hf. apply live_ext; [done|]. intros j.
  rewrite lookup_on_attempt. destruct (decide (k = j)); [|done].
  destruct (attempts w !! j); simpl; [|done]. by rewrite Hf.
Qed.

Lemma live_setState s w : live (setState s w) = live w.
Proof.
  apply live_ext; [apply setState_socket|].
  intros k. by rewrite setState_attempts.
Qed.

Lemma live_with_queue q w : live (with_queue q w) = live w.
Proof. done. Qed.

Lemma write_all_nil a : write_all [] a = a.
Proof. destruct a. unfold write_all. simpl. by rewrite app_nil_r. Qed.

Lemma write_all_cons s l a : write_all l (write s a) = write_all (s :: l) a.
Proof. unfold write_all, write. simpl. by rewrite <- app_assoc. Qed.

(** With a live handle the loop of [flushQueue] ends after one round per
    entry, having written every non-empty entry as a line, in order. *)
Lemma flushQueue_live fuel w k :
  live w = Some k ->
  length (messageQueue w) < fuel ->
  flushQueue fuel w =
  Some (with_queue []
          (on_attempt k
             (write_all (map line (List.filter truthy_string (messageQueue w))))
             w)).
Proof.
  revert w. induction fuel as [|fuel IH]; intros w Hl Hf; [lia|].
  destruct w as [o s st id q l h]. simpl in *.
  destruct q as [|c q]; simpl.
  - unfold on_attempt, with_queue, with_attempts. simpl.
    rewrite list_alter_id; [done|]. apply write_all_nil.
  - simpl in Hf.
    destruct (truthy_string c) eqn:Hc.
    + unfold send. rewrite live_with_queue. simpl.
      unfold live in Hl |- *. simpl in *. rewrite Hl.
      rewrite IH; simpl; [| |lia].
      * unfold on_attempt, with_queue, with_attempts. simpl.
        rewrite list_alter_alter_eq. do 2 f_equal.
        apply list_alter_ext; [|done]. intros a _. simpl.
        apply write_all_cons.
      * rewrite <- Hl. apply (live_on_attempt k _ (mkWorld o s st id q l h)).
        done.
    + rewrite IH; simpl; [done|done|lia].
Qed.

Lemma send_live c w k :
  live w = Some k -> send c w = on_attempt k (write (line c)) w.
Proof. unfold send. by intros ->. Qed.

Lemma send_dead c w :
  live w = None -> send c w = with_queue (messageQueue w ++ [c]) w.
Proof. unfold send. by intros ->. Qed.

Lemma send_face c w : same_face w (send c w).
Proof. unfold send. by destruct (live w). Qed.

Lemma setupSession_face w : same_face w (setupSession w).
Proof. unfold setupSession. by destruct (live w). Qed.

Lemma flushQueue_face fuel w w' :
  flushQueue fuel w = Some w' -> same_face w w'.
Proof.
  revert w. induction fuel as [|fuel IH]; intros w; simpl.
  - destruct (messageQueue w); [|done]. by intros [= <-].
  - destruct (messageQueue w) as [|c q] eqn:Hq; [by intros [= <-]|].
    intros Hfl. apply IH in Hfl as (Hst & Hout & Hopt & Hid).
    destruct (truthy_string c); [|done].
    destruct (send_face c (with_queue q w)) as (Hst' & Hout' & Hopt' & Hid').
    unfold same_face.
    by rewrite Hst, Hout, Hopt, Hid, Hst', Hout', Hopt', Hid'.
Qed.

Lemma setupSession_live w k :
  live w = Some k ->
  setupSession w = on_attempt k (write (handshake (sessionId w))) w.
Proof.
  unfold setupSession, handshake, line. by intros ->.
Qed.

Lemma onConnect_live fuel w k :
  live w = Some k ->
  length (messageQueue w) < fuel ->
  onConnect fuel k (on_attempt k set_established w) =
  Some (with_queue []
          (on_attempt k (opened (sessionId w) (messageQueue w))
             (setState connected w))).
Proof.
  intros Hl Hf. unfold onConnect.
  set (w0 := on_attempt k set_established w).
  assert (live (setState connected w0) = Some k) as Hl1.
  { rewrite live_setState. unfold w0. by rewrite live_on_attempt. }
  rewrite (setupSession_live _ k Hl1).
  rewrite (flushQueue_live fuel _ k).
  - f_equal. unfold w0, opened, setState.
    destruct w as [o s st id q l h]. simpl.
    destruct (onStateChange o); simpl;
      unfold on_attempt, with_queue, with_attempts, with_outside; simpl;
      rewrite !list_alter_alter_eq; f_equal;
      (apply list_alter_ext; [|done]); intros a _; simpl;
      by rewrite write_all_cons.
  - by rewrite live_on_attempt.
  - unfold w0. simpl. by rewrite setState_queue.
Qed.


Lemma destroySocket_socket w : socket (destroySocket w) = socket w.
Proof. unfold destroySocket. by destruct (socket w) eqn:E. Qed.

Lemma destroySocket_state w : state (destroySocket w) = state w.
Proof. unfold destroySocket. by destruct (socket w) eqn:E. Qed.

Lemma destroySocket_queue w : messageQueue (destroySocket w) = messageQueue w.
Proof. unfold destroySocket. by destruct (socket w) eqn:E. Qed.

Lemma lookup_alter_cases (f : Attempt -> Attempt) k (l : list Attempt) j a' :
  alter f k l !! j = Some a' ->
  exists a, l !! j = Some a /\
            ((j <> k /\ a' = a) \/ (j = k /\ a' = f a)).
Proof.
  rewrite list_lookup_alter. destruct (decide (k = j)) as [->|Hne].
  - destruct (l !! j) as [a|]; [|done]. intros [= <-]. eauto.
  - intros Hj. exists a'. split; [done|]. left. split; congruence.
Qed.

End Fields.

Create Rewrite HintDb fields.
#[export] Hint Rewrite
  @setState_state @setState_socket @setState_attempts @setState_queue
  @setState_sessionId @setState_options
  @on_attempt_state @on_attempt_socket @on_attempt_attempts
  @on_attempt_queue @on_attempt_sessionId @on_attempt_options
  @on_attempt_outside
  @destroySocket_socket @destroySocket_state @destroySocket_queue : fields.

(** *** The invariant of the reachable worlds *)
Section Invariant.
Context {H : Type} (JSON_parse : string -> option JSON).
Implicit Types (w : World H) (a : Attempt) (k j : nat).

Lemma sound_fresh : sound fresh.
Proof. split; simpl; try done. by intros d [= <-]. Qed.

Lemma sound_destroy a : sound a -> sound (destroy a).
Proof.
  intros [? ? ? ?]. unfold destroy.
  destruct (destroyed a) eqn:E; split; simpl; auto.
Qed.

Lemma sound_teardown err a : sound a -> sound (teardown err a).
Proof.
  intros [? ? ? ?]. unfold teardown.
  destruct (destroyed a) eqn:E; split; simpl; auto.
Qed.

Lemma sound_write s a : sound a -> sound (write s a).
Proof. intros [? ? ? ?]. split; simpl; auto. Qed.

Lemma sound_clear_error a : sound a -> sound (clear_error a).
Proof. intros [? ? ? ?]. split; simpl; auto. done. Qed.

Lemma sound_clear_close a : sound a -> sound (clear_close a).
Proof. intros [? ? ? ?]. split; simpl; auto. Qed.

Lemma sound_clear_timer a : sound a -> sound (clear_timer a).
Proof. intros [? ? ? ?]. split; simpl; auto. done. Qed.

Lemma sound_resolve_false a :
  sound a -> destroyed a = true -> sound (resolve false a).
Proof.
  intros [He Ht Hf Hd] D. split; simpl; auto.
  destruct (settled a) as [[]|] eqn:E; try done.
  split; [done|]. intros Hx. apply Ht in Hx. done.
Qed.

Lemma sound_opened id q a :
  sound a -> destroyed a = false -> sound (opened id q a).
Proof.
  intros [He Ht Hf Hd] D. unfold opened. split; simpl; auto;
    destruct (settled a) as [[]|] eqn:E; try done;
    rewrite Hf in D; done.
Qed.

Lemma isConnected_true w :
  isConnected w = true <-> state w = connected /\ is_Some (live w).
Proof.
  unfold isConnected. rewrite andb_true_iff, String.eqb_eq.
  by rewrite bool_decide_eq_true.
Qed.

(** A transition that keeps [this.socket], adds no attempt and
    un-destroys none keeps the invariant, once its attempts are sound
    and the queue is accounted for. *)
Lemma inv_update w w' :
  inv w ->
  socket w' = socket w ->
  (forall j a', attempts w' !! j = Some a' ->
     exists a, attempts w !! j = Some a /\ sound a' /\
               (destroyed a = true -> destroyed a' = true)) ->
  (isConnected w' = true -> messageQueue w' = []) ->
  inv w'.
Proof.
  intros [Hc Hs Hq] Es Ha Hq'. split; [| |done].
  - intros j a' Hj D. destruct (Ha j a' Hj) as (a & Hj0 & _ & Hm).
    rewrite Es. apply (Hc j a Hj0).
    destruct (destroyed a); [|done]. by rewrite Hm in D.
  - intros j a' Hj. by destruct (Ha j a' Hj) as (a & _ & ? & _).
Qed.

(** The handle that can still have events is the current one. *)
Lemma inv_live w k a :
  inv w -> attempts w !! k = Some a -> destroyed a = false -> live w = Some k.
Proof.
  intros Hi Hk D. apply live_Some. split; [|eauto].
  by apply (inv_current w Hi k a).
Qed.

Lemma inv_create (opts : Options H) now h : inv (create opts now h).
Proof. split; simpl; try done. Qed.

Lemma inv_with_outside h w : inv w -> inv (with_outside h w).
Proof. intros [Hc Hs Hq]. by split. Qed.

Lemma handleData_after chunk w :
  exists h, after (handleData JSON_parse chunk w) = with_outside h w.
Proof.
  unfold handleData.
  destruct (ignored chunk).
  { exists (outside w). by destruct w. }
  destruct (match JSON_parse chunk with
            | Some r => deliver r (outside w) (options w)
            | None => Thrown (outside w)
            end) as [h|h]; simpl; [by eexists|].
  destruct (deliver (raw chunk) h (options w)); simpl; by eexists.
Qed.

(** The connect callback of a socket that can still connect. *)
Lemma step_SocketConnect w k a :
  inv w -> attempts w !! k = Some a ->
  destroyed a = false -> established a = false ->
  step JSON_parse (SocketConnect k) w =
  Some (with_queue []
          (on_attempt k (opened (sessionId w) (messageQueue w))
             (setState connected w))).
Proof.
  intros Hi Hk D E. simpl. rewrite Hk, D, E. simpl.
  apply onConnect_live; [by eapply inv_live|lia].
Qed.

Lemma not_connected_queue w s (q : list string) :
  state w = s -> String.eqb s connected = false ->
  isConnected w = true -> q = [].
Proof. unfold isConnected. intros -> ->. done. Qed.

Lemma inv_connect w : inv w -> inv (fst (connect w)).
Proof.
  intros Hi. unfold connect.
  destruct (live w) as [k|] eqn:Hl; [done|]. simpl.
  destruct (valid_port _); simpl.
  2: { apply (inv_update w); [done|apply setState_socket| |].
       - intros j a'. rewrite setState_attempts. intros Hj. exists a'.
         split; [done|]. split; [by apply (inv_sound w Hi j)|done].
       - apply (not_connected_queue _ connecting); [|done].
         apply setState_state. }
  rewrite setState_attempts. split; simpl.
  - intros j a Hj D. apply lookup_app_Some in Hj as [Hj|[Hlen Hj]].
    + rewrite (inv_live w j a Hi Hj D) in Hl. done.
    + f_equal. apply list_lookup_singleton_Some in Hj as [Hj _]. lia.
  - intros j a Hj. apply lookup_app_Some in Hj as [Hj|[_ Hj]].
    + by apply (inv_sound w Hi j).
    + apply list_lookup_singleton_Some in Hj as [_ <-]. apply sound_fresh.
  - apply (not_connected_queue _ connecting); [|done].
    unfold with_socket, with_attempts. simpl. apply setState_state.
Qed.

Lemma inv_disconnect w : inv w -> inv (disconnect w).
Proof.
  intros Hi. unfold disconnect.
  assert (forall w1, state (setState disconnected w1) = disconnected) as Hst
    by (intros; apply setState_state).
  destruct (socket w) as [k|] eqn:Hs.
  - unfold destroySocket. rewrite Hs. split.
    + intros j a'. rewrite setState_attempts. simpl.
      rewrite list_lookup_alter. intros Hj D. exfalso.
      destruct (decide (k = j)) as [->|Hne].
      * destruct (attempts w !! j) as [a|]; [|done].
        injection Hj as <-. unfold destroy in D.
        destruct (destroyed a) eqn:E; simpl in D; congruence.
      * pose proof (inv_current w Hi j a' Hj D). congruence.
    + intros j a'. rewrite setState_attempts. simpl.
      rewrite list_lookup_alter. intros Hj.
      destruct (decide (k = j)) as [->|Hne].
      * destruct (attempts w !! j) as [a|] eqn:Hj0; [|done].
        injection Hj as <-. apply sound_destroy. by apply (inv_sound w Hi j).
      * by apply (inv_sound w Hi j).
    + apply (not_connected_queue _ disconnected); [apply Hst|done].
  - split.
    + intros j a. rewrite setState_attempts. intros Hj D.
      pose proof (inv_current w Hi j a Hj D). congruence.
    + intros j a. rewrite setState_attempts. apply (inv_sound w Hi).
    + apply (not_connected_queue _ disconnected); [apply Hst|done].
Qed.

Lemma inv_send c w : inv w -> inv (send c w).
Proof.
  intros Hi. destruct (live w) as [k|] eqn:Hl.
  - rewrite (send_live c w k Hl). apply (inv_update w); [done|done| |].
    + intros j a'. rewrite lookup_on_attempt.
      destruct (decide (k = j)) as [->|_].
      * destruct (attempts w !! j) as [a|] eqn:Hj; [|done].
        intros [= <-]. exists a. split; [done|]. split; [|done].
        apply sound_write. by apply (inv_sound w Hi j).
      * intros Hj. exists a'. split; [done|]. split; [|done].
        by apply (inv_sound w Hi j).
    + intros Hc. apply (inv_queue w Hi).
      apply isConnected_true in Hc as [Hst Hlv]. apply isConnected_true.
      split; [done|]. by rewrite live_on_attempt in Hlv.
  - rewrite (send_dead c w Hl). apply (inv_update w); [done|done| |].
    + intros j a' Hj. exists a'. split; [done|]. split; [|done].
      by apply (inv_sound w Hi j).
    + intros Hc. apply isConnected_true in Hc as [_ Hlv].
      rewrite live_with_queue, Hl in Hlv. by destruct Hlv.
Qed.

Lemma lookup_destroySocket w j a' :
  attempts (destroySocket w) !! j = Some a' ->
  exists a, attempts w !! j = Some a /\
            ((socket w <> Some j /\ a' = a) \/
             (socket w = Some j /\ a' = destroy a)).
Proof.
  unfold destroySocket. destruct (socket w) as [i|] eqn:Hs.
  - autorewrite with fields. intros Hj.
    apply lookup_alter_cases in Hj as (a & Hj & [[Hne ->]|[-> ->]]).
    + exists a. split; [done|]. left. split; congruence.
    + eauto.
  - intros Hj. exists a'. split; [done|]. by left.
Qed.

Lemma destroy_destroyed a : destroyed (destroy a) = true.
Proof. unfold destroy. by destruct (destroyed a) eqn:E. Qed.

Lemma teardown_destroyed err a : destroyed (teardown err a) = true.
Proof. unfold teardown. by destruct (destroyed a) eqn:E. Qed.

(** [inv_update] for the transitions whose queue is plainly accounted
    for: emptied, or left alone with the state, or in a state that is
    not [connected]. *)
Lemma inv_update' w w' :
  inv w ->
  socket w' = socket w ->
  (forall j a', attempts w' !! j = Some a' ->
     exists a, attempts w !! j = Some a /\ sound a' /\
               (destroyed a = true -> destroyed a' = true)) ->
  (messageQueue w' = [] \/ String.eqb (state w') connected = false \/
   (state w' = state w /\ messageQueue w' = messageQueue w)) ->
  inv w'.
Proof.
  intros Hi Es Ha Hq. apply (inv_update w); try done.
  destruct Hq as [Hq|[Hq|[Hst Hq]]]; [done| |].
  - unfold isConnected. by rewrite Hq.
  - intros Hc. rewrite Hq. apply (inv_queue w Hi).
    apply isConnected_true in Hc as [Hc Hlv]. apply isConnected_true.
    split; [congruence|]. destruct Hlv as [i Hlv].
    apply live_Some in Hlv as (Hs & a' & Hi' & D).
    destruct (Ha i a' Hi') as (a & Hi0 & _ & Hm).
    exists i. apply live_Some. split; [congruence|]. exists a.
    split; [done|]. destruct (destroyed a); [|done]. by rewrite Hm in D.
Qed.

Lemma inv_step op w w' :
  inv w -> step JSON_parse op w = Some w' -> inv w'.
Proof.
  intros Hi. destruct op as [| |c|k|k chunk|k|k|k|k err]; simpl.
  - intros [= <-]. by apply inv_connect.
  - intros [= <-]. by apply inv_disconnect.
  - intros [= <-]. by apply inv_send.
  - (* the connect callback *)
    destruct (attempts w !! k) as [a|] eqn:Hk; [|done].
    destruct (destroyed a) eqn:D; [done|].
    destruct (established a) eqn:E; [done|]. simpl.
    rewrite (onConnect_live _ w k); [|by eapply inv_live|lia].
    intros [= <-]. apply (inv_update' w); [done|apply setState_socket| |by left].
    intros j a'. simpl. rewrite setState_attempts.
    intros Hj. apply lookup_alter_cases in Hj as (a0 & Hj & [[_ ->]|[-> ->]]).
    + exists a0. split; [done|]. split; [|done]. by apply (inv_sound w Hi j).
    + exists a0. split; [done|]. split; [|done].
      assert (a0 = a) as -> by congruence.
      apply sound_opened; [|done]. by apply (inv_sound w Hi k).
  - (* data *)
    destruct (attempts w !! k) as [a|]; [|done].
    destruct (established a && negb (destroyed a)); [|done].
    intros [= <-]. destruct (handleData_after chunk w) as [h ->].
    by apply inv_with_outside.
  - (* the 'error' listener *)
    destruct (attempts w !! k) as [a|] eqn:Hk; [|done].
    destruct (errorPending a) eqn:E; [|done].
    intros [= <-]. apply (inv_update' w); [done| | |].
    + unfold onError. simpl. by rewrite setState_socket.
    + intros j a'. unfold onError. simpl. rewrite setState_attempts. simpl.
      intros Hj. apply lookup_alter_cases in Hj as (a1 & Hj & Hc1).
      apply lookup_alter_cases in Hj as (a0 & Hj & Hc0).
      exists a0. split; [done|].
      pose proof (inv_sound w Hi j a0 Hj) as Hs.
      destruct Hc1 as [[_ ->]|[-> ->]], Hc0 as [[_ ->]|[? ->]];
        (split; [|done]); try done.
      * by apply sound_clear_error.
      * apply sound_resolve_false; [done|].
        assert (a0 = a) as -> by congruence. by apply Hs.
      * apply sound_resolve_false; [by apply sound_clear_error|].
        assert (a0 = a) as -> by congruence. simpl. by apply Hs.
    + right. left. unfold onError. simpl. by rewrite setState_state.
  - (* the 'close' listener *)
    destruct (attempts w !! k) as [a|] eqn:Hk; [|done].
    destruct (closePending a && negb (errorPending a)); [|done].
    intros [= <-]. apply (inv_update' w); [done| | |].
    + unfold onClose. by rewrite setState_socket.
    + intros j a'. unfold onClose. rewrite setState_attempts. simpl.
      intros Hj. apply lookup_alter_cases in Hj as (a0 & Hj & Hc0).
      exists a0. split; [done|].
      pose proof (inv_sound w Hi j a0 Hj) as Hs.
      destruct Hc0 as [[_ ->]|[? ->]]; (split; [|done]); try done.
      by apply sound_clear_close.
    + right. left. unfold onClose. by rewrite setState_state.
  - (* the timer *)
    destruct (attempts w !! k) as [a|] eqn:Hk; [|done].
    destruct (timer a) as [d|] eqn:Ht; [|done].
    intros [= <-]. unfold onTimeout. autorewrite with fields.
    destruct (String.eqb (state w) connecting) eqn:Hst.
    + apply (inv_update' w); [done| | |].
      * by autorewrite with fields.
      * intros j a'. autorewrite with fields.
        intros Hj. apply lookup_alter_cases in Hj as (a2 & Hj & Hc2).
        apply lookup_destroySocket in Hj as (a1 & Hj & Hc1).
        autorewrite with fields in Hj, Hc1.
        apply lookup_alter_cases in Hj as (a0 & Hj & Hc0).
        exists a0. split; [done|].
        pose proof (inv_sound w Hi j a0 Hj) as Hs0.
        assert (sound a1 /\ destroyed a1 = destroyed a0) as [Hs1 Hd1].
        { destruct Hc0 as [[_ ->]|[_ ->]]; [done|].
          split; [by apply sound_clear_timer|done]. }
        assert (sound a2 /\ (destroyed a0 = true -> destroyed a2 = true) /\
                (socket w = Some j -> destroyed a2 = true)) as (Hs2 & Hd2 & Hd2').
        { destruct Hc1 as [[Hsj ->]|[Hsj ->]].
          - split; [done|]. split; [congruence|]. done.
          - split; [by apply sound_destroy|].
            split; intros _; apply destroy_destroyed. }
        destruct Hc2 as [[_ ->]|[-> ->]]; [done|].
        split; [|done]. apply sound_resolve_false; [done|].
        destruct (destroyed a0) eqn:D0; [by apply Hd2|].
        apply Hd2'. by apply (inv_current w Hi k a0).
      * right. left. by autorewrite with fields.
    + apply (inv_update' w); [done|done| |by right; right].
      intros j a'. simpl.
      intros Hj. apply lookup_alter_cases in Hj as (a0 & Hj & Hc0).
      exists a0. split; [done|].
      pose proof (inv_sound w Hi j a0 Hj) as Hs.
      destruct Hc0 as [[_ ->]|[? ->]]; (split; [|done]); try done.
      by apply sound_clear_timer.
  - (* the runtime destroys the handle *)
    destruct (attempts w !! k) as [a|] eqn:Hk; [|done].
    destruct (destroyed a) eqn:D; [done|].
    intros [= <-]. apply (inv_update' w); [done|done| |by right; right].
    intros j a'. simpl.
    intros Hj. apply lookup_alter_cases in Hj as (a0 & Hj & Hc0).
    exists a0. split; [done|].
    pose proof (inv_sound w Hi j a0 Hj) as Hs.
    destruct Hc0 as [[_ ->]|[? ->]]; [done|].
    split; [by apply sound_teardown|]. intros _. apply teardown_destroyed.
Qed.

End Invariant.
(** *** What the client guarantees *)
Section Claims.
Context {H : Type} (JSON_parse : string -> option JSON).
Implicit Types (w : World H) (a : Attempt) (k j : nat).

Lemma reachable_inv w : reachable JSON_parse w -> inv w.
Proof.
  induction 1 as [opts now h|op w w' _ IH Hstep].
  - apply inv_create.
  - by apply (inv_step JSON_parse op w).
Qed.

(** Sends without a live handle only grow the queue. *)
Lemma sends_dead ps w :
  live w = None ->
  fold_left (fun w p => send p w) ps w = with_queue (messageQueue w ++ ps) w.
Proof.
  revert w. induction ps as [|p ps IH]; intros w Hl; simpl.
  - rewrite app_nil_r. by destruct w.
  - rewrite (send_dead p w Hl), IH; [|done].
    unfold with_queue. simpl. by rewrite <- app_assoc.
Qed.

(** [connect] without a live handle, the port being one
    [net.createConnection] takes. *)
Lemma connect_dead w :
  live w = None -> valid_port (port (options w)) = true ->
  connect w =
  (with_socket (Some (length (attempts w)))
     (with_attempts (attempts w ++ [fresh]) (setState connecting w)),
   Awaiting (length (attempts w))).
Proof.
  unfold connect. intros -> Hp.
  by rewrite setState_options, Hp, setState_attempts.
Qed.

(** [connect] without a live handle, [net.createConnection] throwing. *)
Lemma connect_bad_port w :
  live w = None -> valid_port (port (options w)) = false ->
  connect w = (setState connecting w, Rejected).
Proof. unfold connect. intros -> Hp. by rewrite setState_options, Hp. Qed.

Lemma connect_dead_live w :
  live w = None -> valid_port (port (options w)) = true ->
  live (fst (connect w)) = Some (length (attempts w)).
Proof.
  intros Hl Hp. rewrite (connect_dead w Hl Hp). simpl. apply live_Some.
  split; [done|]. exists fresh. split; [|done]. simpl.
  by rewrite list_lookup_middle.
Qed.

(** C1, amended.  Payloads sent while there is no live handle are queued
    in order and nothing is written; after the next [connect], the
    configured port being in 0..65535 so that a handle is created, when
    that handle is established the callback writes the handshake line and
    then every non-empty queued payload as a line of its own, in the
    order of the queue, and empties the queue; a payload sent after that
    is written after them. *)
Theorem queue_flushed_in_order w (ps : list string) :
  live w = None -> valid_port (port (options w)) = true ->
  let w1 := fold_left (fun w p => send p w) ps w in
  let k := length (attempts w) in
  let sent :=
    handshake (sessionId w)
    :: map line (List.filter truthy_string (messageQueue w ++ ps)) in
  messageQueue w1 = messageQueue w ++ ps /\
  attempts w1 = attempts w /\
  snd (connect w1) = Awaiting k /\
  exists w3,
    step JSON_parse (SocketConnect k) (fst (connect w1)) = Some w3 /\
    state w3 = connected /\
    messageQueue w3 = [] /\
    written <$> attempts w3 !! k = Some sent /\
    forall x, written <$> attempts (send x w3) !! k = Some (sent ++ [line x]).
Proof.
  intros Hl Hp. cbv zeta. rewrite (sends_dead ps w Hl).
  set (w1 := with_queue (messageQueue w ++ ps) w).
  assert (live w1 = None) as Hl1 by done.
  assert (valid_port (port (options w1)) = true) as Hp1 by done.
  split; [done|]. split; [done|].
  split; [by rewrite (connect_dead w1 Hl1 Hp1)|].
  pose proof (connect_dead_live w1 Hl1 Hp1) as Hl2.
  set (w2 := fst (connect w1)) in *.
  change (length (attempts w1)) with (length (attempts w)) in Hl2.
  set (k := length (attempts w)) in *.
  assert (attempts w2 !! k = Some fresh) as Hk.
  { unfold w2. rewrite (connect_dead w1 Hl1 Hp1). simpl.
    by rewrite list_lookup_middle. }
  assert (sessionId w2 = sessionId w /\ messageQueue w2 = messageQueue w ++ ps)
    as [Hid Hq].
  { unfold w2. rewrite (connect_dead w1 Hl1 Hp1). simpl.
    by rewrite setState_sessionId, setState_queue. }
  eexists. split.
  { simpl. rewrite Hk. simpl. apply onConnect_live; [done|lia]. }
  rewrite Hid, Hq.
  set (sent := handshake (sessionId w) :: _).
  assert (forall w', attempts w' = attempts w2 ->
            alter (opened (sessionId w) (messageQueue w ++ ps)) k (attempts w')
            !! k = Some (opened (sessionId w) (messageQueue w ++ ps) fresh))
    as Hop.
  { intros w' ->. by rewrite list_lookup_alter_eq, Hk. }
  split; [simpl; apply setState_state|]. split; [done|]. split.
  - simpl. rewrite Hop; [done|apply setState_attempts].
  - intros x. rewrite (send_live x _ k).
    + simpl. rewrite list_lookup_alter_eq.
      rewrite Hop; [done|apply setState_attempts].
    + rewrite live_with_queue, live_on_attempt; [|done].
      by rewrite live_setState.
Qed.

(** An attempt whose promise is still open in a reachable world. *)
Lemma settled_of_sound a :
  sound a ->
  (settled a = Some true <-> established a = true) /\
  (settled a = Some false -> destroyed a = true /\ established a = false).
Proof.
  intros [He Ht Hf Hd]. split; [done|]. intros Hs. split; [by apply Hf|].
  destruct (established a); [|done]. destruct Ht as [_ Ht].
  specialize (Ht eq_refl). congruence.
Qed.

Lemma lookup_resolve k b w a :
  attempts w !! k = Some a ->
  settled <$> attempts (on_attempt k (resolve b) w) !! k
  = Some (match settled a with Some r => Some r | None => Some b end).
Proof. intros Hk. simpl. by rewrite list_lookup_alter_eq, Hk. Qed.

(** The timer of a call that is still open, firing while the state is
    [connecting]. *)
Lemma timer_resolves w k a w' :
  step JSON_parse (TimerFires k) w = Some w' ->
  attempts w !! k = Some a -> settled a = None -> state w = connecting ->
  state w' = error /\ settled <$> attempts w' !! k = Some (Some false).
Proof.
  intros Hstep Hk Hs Hst. simpl in Hstep. rewrite Hk in Hstep.
  destruct (timer a); [|done]. injection Hstep as <-.
  unfold onTimeout. autorewrite with fields. rewrite Hst. simpl.
  split; [by autorewrite with fields|].
  assert (exists a1, attempts (setState error
            (destroySocket (on_attempt k clear_timer w))) !! k = Some a1 /\
            settled a1 = None) as (a1 & Hk1 & Hs1).
  { autorewrite with fields. unfold destroySocket.
    autorewrite with fields.
    destruct (socket w) as [i|]; autorewrite with fields.
    - rewrite list_lookup_alter.
      destruct (decide (i = k)) as [->|_];
        rewrite list_lookup_alter_eq, Hk; simpl; eexists; split; try done.
      unfold destroy. by destruct (destroyed _).
    - rewrite list_lookup_alter_eq, Hk. simpl. by eexists. }
  rewrite list_lookup_alter_eq, Hk1. simpl. by rewrite Hs1.
Qed.

(** C3, amended.  In a reachable world: a [connect] with a live handle,
    whether that handle is still connecting or is connected, returns
    [true] at once and changes nothing (no second handle, no handshake);
    a [connect] without one, the configured port being in 0..65535, opens
    exactly one new handle in state [connecting] and awaits it; with a
    port outside that range [net.createConnection] throws: the call is
    rejected, the state is left [connecting], and no handle and no timer
    is created.  An awaited call is resolved [true]
    exactly when the connect callback of its handle has run, which puts
    the state to [connected]; it is resolved [false] by the error event
    of its handle and by its own timer firing while the state is
    [connecting], both of which put the state to [error]. *)
Theorem connect_resolution w :
  reachable JSON_parse w ->
  (forall k, live w = Some k -> connect w = (w, Resolved true)) /\
  (live w = None -> valid_port (port (options w)) = true ->
   connect w =
   (with_socket (Some (length (attempts w)))
      (with_attempts (attempts w ++ [fresh]) (setState connecting w)),
    Awaiting (length (attempts w)))) /\
  (live w = None -> valid_port (port (options w)) = false ->
   connect w = (setState connecting w, Rejected) /\
   state (fst (connect w)) = connecting /\
   socket (fst (connect w)) = socket w /\
   attempts (fst (connect w)) = attempts w /\
   live (fst (connect w)) = None) /\
  (forall k a, attempts w !! k = Some a ->
     (settled a = Some true <-> established a = true) /\
     (settled a = Some false -> destroyed a = true /\ established a = false)) /\
  (forall k w', step JSON_parse (SocketConnect k) w = Some w' ->
     state w' = connected /\
     settled <$> attempts w' !! k = Some (Some true)) /\
  (forall k a w', step JSON_parse (SocketError k) w = Some w' ->
     attempts w !! k = Some a -> settled a = None ->
     state w' = error /\
     settled <$> attempts w' !! k = Some (Some false)) /\
  (forall k a w', step JSON_parse (TimerFires k) w = Some w' ->
     attempts w !! k = Some a -> settled a = None ->
     state w = connecting ->
     state w' = error /\
     settled <$> attempts w' !! k = Some (Some false)).
Proof.
  intros Hr. pose proof (reachable_inv w Hr) as Hi.
  split; [|split; [|split; [|split; [|split; [|split]]]]].
  - intros k Hl. unfold connect. by rewrite Hl.
  - apply connect_dead.
  - intros Hl Hp. rewrite (connect_bad_port w Hl Hp). simpl.
    split; [done|]. split; [apply setState_state|].
    split; [apply setState_socket|]. split; [apply setState_attempts|].
    by rewrite live_setState.
  - intros k a Hk. apply settled_of_sound. by apply (inv_sound w Hi k).
  - intros k w' Hstep.
    assert (exists a, attempts w !! k = Some a /\ destroyed a = false /\
                      established a = false) as (a & Hk & D & E).
    { simpl in Hstep. destruct (attempts w !! k) as [a|]; [|done].
      exists a. destruct (destroyed a), (established a); done. }
    rewrite (step_SocketConnect JSON_parse w k a Hi Hk D E) in Hstep.
    injection Hstep as <-. split; [simpl; apply setState_state|].
    simpl. rewrite setState_attempts, list_lookup_alter_eq, Hk. simpl.
    destruct (inv_sound w Hi k a Hk) as [_ _ Hf _].
    destruct (settled a) as [[]|]; try done.
    rewrite Hf in D; done.
  - intros k a w' Hstep Hk Hs. simpl in Hstep. rewrite Hk in Hstep.
    destruct (errorPending a); [|done]. injection Hstep as <-.
    unfold onError. split; [by autorewrite with fields|].
    rewrite (lookup_resolve k false _ (clear_error a)).
    + simpl. by rewrite Hs.
    + autorewrite with fields. by rewrite list_lookup_alter_eq, Hk.
  - intros k a w'. apply timer_resolves.
Qed.

(** C4, amended.  [send] is gated on the handle: without a live handle
    the text goes to the end of the queue and no socket is touched; while
    connected on a live handle the text and a newline are written to that
    handle in one write and the queue is left alone. *)
Theorem send_gated_on_handle w (text : string) :
  (live w = None ->
   send text w = with_queue (messageQueue w ++ [text]) w) /\
  (forall k a, state w = connected -> live w = Some k ->
     attempts w !! k = Some a ->
     messageQueue (send text w) = messageQueue w /\
     attempts (send text w)
     = <[k := write (text +:+ newline) a]> (attempts w)).
Proof.
  split; [apply send_dead|].
  intros k a _ Hl Hk. rewrite (send_live text w k Hl). split; [done|].
  simpl. apply list_eq. intros j. rewrite list_lookup_alter.
  destruct (decide (k = j)) as [<-|Hne].
  - rewrite Hk. simpl. rewrite list_lookup_insert_eq; [done|].
    by apply lookup_lt_Some in Hk.
  - by rewrite list_lookup_insert_ne.
Qed.

(** C5, amended.  In a reachable world, when the timer of a call fires
    while the state is still [connecting] and the handle of the call is
    still half-open (not established, not destroyed): the timer is the
    5000 ms one, the call is not yet resolved, and the callback puts the
    state to [error], resolves the call [false] and destroys the handle,
    leaving no live handle. *)
Theorem timeout_while_connecting w k a :
  reachable JSON_parse w ->
  attempts w !! k = Some a -> is_Some (timer a) ->
  established a = false -> destroyed a = false ->
  state w = connecting ->
  timer a = Some 5000%Z /\
  settled a = None /\
  exists w', step JSON_parse (TimerFires k) w = Some w' /\
    state w' = error /\
    settled <$> attempts w' !! k = Some (Some false) /\
    destroyed <$> attempts w' !! k = Some true /\
    live w' = None /\
    (forall j b, attempts w' !! j = Some b -> destroyed b = true).
Proof.
  intros Hr Hk [d Ht] He Hd Hst.
  pose proof (reachable_inv w Hr) as Hi.
  pose proof (inv_sound w Hi k a Hk) as Hsound.
  assert (settled a = None) as Hs.
  { destruct (settled_of_sound a Hsound) as [Htrue Hfalse].
    destruct (settled a) as [[]|]; [|destruct Hfalse; congruence|done].
    destruct Htrue as [Htrue _]. specialize (Htrue eq_refl). congruence. }
  split.
  { rewrite Ht. f_equal. by apply (sound_timer a Hsound). }
  split; [done|].
  destruct (step JSON_parse (TimerFires k) w) as [w'|] eqn:Hstep;
    [|simpl in Hstep; by rewrite Hk, Ht in Hstep].
  exists w'. split; [done|].
  destruct (timer_resolves w k a w' Hstep Hk Hs Hst) as [Hst' Hs'].
  split; [done|]. split; [done|].
  assert (forall j b, attempts w' !! j = Some b -> destroyed b = true) as Hall.
  { intros j b Hj. destruct (destroyed b) eqn:D; [done|]. exfalso.
    pose proof (inv_step JSON_parse _ w w' Hi Hstep) as Hi'.
    pose proof (inv_current w' Hi' j b Hj D) as Hcur.
    simpl in Hstep. rewrite Hk, Ht in Hstep. injection Hstep as <-.
    unfold onTimeout in *. autorewrite with fields in *.
    rewrite Hst in *. simpl in *. autorewrite with fields in *.
    apply lookup_alter_cases in Hj as (b2 & Hj & Hc2).
    apply lookup_destroySocket in Hj as (b1 & Hj & Hc1).
    autorewrite with fields in *.
    assert (destroyed b2 = true) as D2.
    { destruct Hc1 as [[Hne _]|[_ ->]]; [done|apply destroy_destroyed]. }
    destruct Hc2 as [[_ ->]|[_ ->]]; simpl in D; congruence. }
  split.
  { destruct (attempts w' !! k) as [b|] eqn:Hb; [|done].
    simpl. f_equal. by apply (Hall k). }
  split; [|done].
  apply live_None. intros i b _ Hb. by apply (Hall i).
Qed.

(** The session id is fixed at construction: no transition changes it, so
    every handshake of an instance carries the same id. *)
Lemma sessionId_step op w w' :
  step JSON_parse op w = Some w' -> sessionId w' = sessionId w.
Proof.
  destruct op as [| |c|k|k chunk|k|k|k|k err]; simpl.
  - intros [= <-]. unfold connect. destruct (live w); [done|]. simpl.
    destruct (valid_port _); simpl; apply setState_sessionId.
  - intros [= <-]. unfold disconnect. rewrite setState_sessionId.
    unfold destroySocket. by destruct (socket w).
  - intros [= <-]. by destruct (send_face c w) as (_ & _ & _ & ->).
  - destruct (attempts w !! k) as [a|]; [|done].
    destruct (destroyed a || established a); [done|].
    unfold onConnect. set (w1 := setupSession _).
    destruct (flushQueue _ w1) as [w3|] eqn:Hfl; [|done]. intros [= <-].
    autorewrite with fields.
    apply flushQueue_face in Hfl as (_ & _ & _ & ->). unfold w1.
    destruct (setupSession_face (setState connected
                (on_attempt k set_established w))) as (_ & _ & _ & ->).
    by autorewrite with fields.
  - destruct (attempts w !! k) as [a|]; [|done].
    destruct (established a && negb (destroyed a)); [|done].
    intros [= <-]. by destruct (handleData_after JSON_parse chunk w) as [h ->].
  - destruct (attempts w !! k) as [a|]; [|done].
    destruct (errorPending a); [|done]. intros [= <-].
    unfold onError. by autorewrite with fields.
  - destruct (attempts w !! k) as [a|]; [|done].
    destruct (closePending a && negb (errorPending a)); [|done].
    intros [= <-]. unfold onClose. by autorewrite with fields.
  - destruct (attempts w !! k) as [a|]; [|done].
    destruct (timer a); [|done]. intros [= <-].
    unfold onTimeout. autorewrite with fields.
    destruct (String.eqb (state w) connecting); [|done].
    autorewrite with fields. unfold destroySocket.
    by destruct (socket _).
  - destruct (attempts w !! k) as [a|]; [|done].
    destruct (destroyed a); [done|]. by intros [= <-].
Qed.

Lemma sessionId_run ops w w' :
  run JSON_parse ops w = Some w' -> sessionId w' = sessionId w.
Proof.
  revert w. induction ops as [|op ops IH]; intros w; simpl.
  - by intros [= <-].
  - destruct (step JSON_parse op w) as [w1|] eqn:Hstep; [|done].
    intros Hrun. rewrite (IH w1 Hrun). by apply (sessionId_step op).
Qed.

(** X10.  In a reachable world the connect callback appends the handshake line
    and the non-empty queued payloads to what was already written to its
    handle: the handshake comes first exactly when nothing was sent on the
    handle while it was connecting. *)
Lemma handshake_on_connect w k a w' :
  reachable JSON_parse w ->
  attempts w !! k = Some a ->
  step JSON_parse (SocketConnect k) w = Some w' ->
  state w' = connected /\
  written <$> attempts w' !! k
  = Some (written a ++ handshake (sessionId w)
                       :: map line (List.filter truthy_string (messageQueue w))).
Proof.
  intros Hr Hk Hstep. pose proof (reachable_inv w Hr) as Hi.
  assert (destroyed a = false /\ established a = false) as [D E].
  { simpl in Hstep. rewrite Hk in Hstep.
    by destruct (destroyed a), (established a). }
  rewrite (step_SocketConnect JSON_parse w k a Hi Hk D E) in Hstep.
  injection Hstep as <-. split; [simpl; apply setState_state|].
  simpl. by rewrite setState_attempts, list_lookup_alter_eq, Hk.
Qed.

(** An abandoned call stays abandoned: its promise is never resolved. *)
Lemma abandoned_step op w w' k a :
  attempts w !! k = Some a -> abandoned a ->
  step JSON_parse op w = Some w' ->
  exists a', attempts w' !! k = Some a' /\ abandoned a'.
Proof.
  intros Hk Ha. pose proof Ha as (D & E & T & S).
  assert (abandoned (destroy a)) as Hdes.
  { unfold destroy. by rewrite D. }
  destruct op as [| |c|j|j chunk|j|j|j|j err]; simpl.
  - intros [= <-]. unfold connect. destruct (live w); [by eauto|]. simpl.
    destruct (valid_port _); simpl; rewrite setState_attempts;
      [|by eauto].
    exists a. split; [|done].
    by apply lookup_app_l_Some.
  - intros [= <-]. unfold disconnect, destroySocket.
    destruct (socket w) as [i|]; autorewrite with fields; [|by eauto].
    simpl. rewrite list_lookup_alter.
    destruct (decide (i = k)) as [->|]; rewrite Hk; simpl; eauto.
  - intros [= <-]. unfold send. destruct (live w) as [i|]; [|by eauto].
    simpl. rewrite list_lookup_alter.
    destruct (decide (i = k)) as [->|]; rewrite Hk; simpl; eauto.
  - destruct (attempts w !! j) as [b|] eqn:Hj; [|done].
    destruct (destroyed b || established b) eqn:Hen; [done|].
    assert (j <> k) as Hne.
    { intros ->. rewrite Hk in Hj. injection Hj as <-. by rewrite D in Hen. }
    unfold onConnect, setupSession.
    set (w0 := setState connected (on_attempt j set_established w)).
    assert (attempts w0 !! k = Some a) as Hk0.
    { unfold w0. autorewrite with fields. by rewrite list_lookup_alter_ne. }
    assert (forall w1 : World H, attempts w1 !! k = Some a ->
              forall fuel w3, flushQueue fuel w1 = Some w3 ->
              attempts w3 !! k = Some a) as Hflush.
    { intros w1 Hk1 fuel. revert w1 Hk1.
      induction fuel as [|fuel IH]; intros w1 Hk1 w3; simpl.
      - destruct (messageQueue w1); [|done]. by intros [= <-].
      - destruct (messageQueue w1) as [|c q]; [by intros [= <-]|].
        apply IH. destruct (truthy_string c); [|done].
        unfold send. rewrite live_with_queue.
        destruct (live w1) as [i|] eqn:Hl; [|done].
        simpl. rewrite list_lookup_alter.
        destruct (decide (i = k)) as [->|]; [|done].
        apply live_Some in Hl as (_ & b' & Hb' & Db').
        rewrite Hk1 in Hb'. injection Hb' as <-. congruence. }
    assert (attempts (match live w0 with
                      | Some i => on_attempt i
                          (write ("@session " +:+ sessionId w0 +:+ newline)) w0
                      | None => w0
                      end) !! k = Some a) as Hk1.
    { destruct (live w0) as [i|] eqn:Hl; [|done].
      simpl. rewrite list_lookup_alter.
      destruct (decide (i = k)) as [->|]; [|done].
      apply live_Some in Hl as (_ & b' & Hb' & Db').
      rewrite Hk0 in Hb'. injection Hb' as <-. congruence. }
    destruct (flushQueue _ _) as [w3|] eqn:Hfl; [|done].
    intros [= <-]. exists a. split; [|done].
    autorewrite with fields. rewrite list_lookup_alter_ne by done.
    by apply (Hflush _ Hk1 _ _ Hfl).
  - destruct (attempts w !! j) as [b|]; [|done].
    destruct (established b && negb (destroyed b)); [|done].
    intros [= <-]. destruct (handleData_after JSON_parse chunk w) as [h ->].
    by eauto.
  - destruct (attempts w !! j) as [b|] eqn:Hj; [|done].
    destruct (errorPending b) eqn:Hen; [|done].
    assert (j <> k) as Hne.
    { intros ->. rewrite Hk in Hj. injection Hj as <-. congruence. }
    intros [= <-]. unfold onError. autorewrite with fields.
    rewrite !list_lookup_alter_ne by done. eauto.
  - destruct (attempts w !! j) as [b|] eqn:Hj; [|done].
    destruct (closePending b && negb (errorPending b)); [|done].
    intros [= <-]. unfold onClose. autorewrite with fields.
    rewrite list_lookup_alter.
    destruct (decide (j = k)) as [->|]; rewrite Hk; simpl; eauto.
  - destruct (attempts w !! j) as [b|] eqn:Hj; [|done].
    destruct (timer b) eqn:Hen; [|done].
    assert (j <> k) as Hne.
    { intros ->. rewrite Hk in Hj. injection Hj as <-. congruence. }
    intros [= <-]. unfold onTimeout. autorewrite with fields.
    destruct (String.eqb (state w) connecting).
    + autorewrite with fields. rewrite list_lookup_alter_ne by done.
      unfold destroySocket. autorewrite with fields.
      destruct (socket w) as [i|]; autorewrite with fields.
      * rewrite list_lookup_alter.
        destruct (decide (i = k)) as [->|];
          rewrite list_lookup_alter_ne, Hk by done; simpl; eauto.
      * rewrite list_lookup_alter_ne by done. eauto.
    + autorewrite with fields. rewrite list_lookup_alter_ne by done. eauto.
  - destruct (attempts w !! j) as [b|] eqn:Hj; [|done].
    destruct (destroyed b) eqn:Hen; [done|].
    assert (j <> k) as Hne.
    { intros ->. rewrite Hk in Hj. injection Hj as <-. congruence. }
    intros [= <-]. autorewrite with fields.
    rewrite list_lookup_alter_ne by done. eauto.
Qed.

(** X5.  A call of [connect] given up never resolves: once the socket of
    an attempt is destroyed with no error event due, its timer has fired
    and its promise is still open, no later transition settles the
    promise, whatever the client goes through. *)
Lemma abandoned_never_resolved ops w w' k a :
  attempts w !! k = Some a -> abandoned a ->
  run JSON_parse ops w = Some w' ->
  settled <$> attempts w' !! k = Some None.
Proof.
  revert w a. induction ops as [|op ops IH]; intros w a Hk Ha; simpl.
  - intros [= <-]. rewrite Hk. simpl. by destruct Ha as (_ & _ & _ & ->).
  - destruct (step JSON_parse op w) as [w1|] eqn:Hstep; [|done].
    destruct (abandoned_step op w w1 k a Hk Ha Hstep) as (a1 & Hk1 & Ha1).
    by apply (IH w1 a1).
Qed.

(** C7, amended.  In every reachable world the queue is non-empty only
    when the client is not connected on a live handle, that is, when
    [isConnected()] is false. *)
Theorem queue_empty_when_connected w :
  reachable JSON_parse w -> isConnected w = true -> messageQueue w = [].
Proof. intros Hr. apply inv_queue. by apply reachable_inv. Qed.

(** C9.  [setState] calls the registered observer with the value it
    assigns, whatever the state was; so [disconnect] on a client that is
    already [disconnected] tells the observer "disconnected" once more;
    and no transition changes the state without telling it. *)
Theorem observer_told_every_assignment w (f : string -> H -> H) :
  onStateChange (options w) = Some f ->
  (forall s, state (setState s w) = s /\
             outside (setState s w) = f s (outside w)) /\
  (state w = disconnected ->
   state (disconnect w) = disconnected /\
   outside (disconnect w) = f disconnected (outside w)) /\
  (forall op w', step JSON_parse op w = Some w' ->
     state w' = state w \/ outside w' = f (state w') (outside w)).
Proof.
  intros Hf.
  assert (forall s w0, options w0 = options w -> outside w0 = outside w ->
            outside (setState s w0) = f s (outside w)) as Hout.
  { intros s w0 Ho Hh. by rewrite setState_outside, Ho, Hf, Hh. }
  split; [|split].
  - intros s. split; [apply setState_state|by apply Hout].
  - intros _. unfold disconnect. split; [apply setState_state|].
    apply Hout; unfold destroySocket; by destruct (socket w).
  - intros op w' Hstep.
    destruct op as [| |c|k|k chunk|k|k|k|k err]; simpl in Hstep.
    + injection Hstep as <-. unfold connect.
      destruct (live w); [by left|]. right. simpl.
      destruct (valid_port _); simpl; rewrite setState_state; by apply Hout.
    + injection Hstep as <-. right. unfold disconnect.
      rewrite setState_state.
      apply Hout; unfold destroySocket; by destruct (socket w).
    + injection Hstep as <-. left. unfold send. by destruct (live w).
    + destruct (attempts w !! k) as [a|]; [|done].
      destruct (destroyed a || established a); [done|].
      unfold onConnect in Hstep.
      set (w1 := setupSession _) in Hstep.
      destruct (flushQueue _ w1) as [w3|] eqn:Hfl; [|done].
      injection Hstep as <-. right. autorewrite with fields.
      apply flushQueue_face in Hfl as (-> & -> & _ & _). unfold w1.
      destruct (setupSession_face (setState connected
                  (on_attempt k set_established w))) as (-> & -> & _ & _).
      rewrite setState_state. by apply Hout.
    + destruct (attempts w !! k) as [a|]; [|done].
      destruct (established a && negb (destroyed a)); [|done].
      injection Hstep as <-. left.
      by destruct (handleData_after JSON_parse chunk w) as [h ->].
    + destruct (attempts w !! k) as [a|]; [|done].
      destruct (errorPending a); [|done]. injection Hstep as <-.
      right. unfold onError. autorewrite with fields. by apply Hout.
    + destruct (attempts w !! k) as [a|]; [|done].
      destruct (closePending a && negb (errorPending a)); [|done].
      injection Hstep as <-. right. unfold onClose.
      autorewrite with fields. by apply Hout.
    + destruct (attempts w !! k) as [a|]; [|done].
      destruct (timer a); [|done]. injection Hstep as <-.
      unfold onTimeout. autorewrite with fields.
      destruct (String.eqb (state w) connecting); [|by left].
      right. autorewrite with fields. apply Hout.
      * unfold destroySocket. by destruct (socket _).
      * unfold destroySocket. by destruct (socket _).
    + destruct (attempts w !! k) as [a|]; [|done].
      destruct (destroyed a); [done|]. injection Hstep as <-. by left.
Qed.

End Claims.

Lemma reachable_pending : reachable Scenario.unparsed Scenario.pending.
Proof.
  apply (reach_step _ Connect Scenario.client); [apply reach_create|done].
Qed.

Lemma reachable_online : reachable Scenario.unparsed Scenario.online.
Proof.
  apply (reach_step _ (SocketConnect 0) Scenario.pending);
    [apply reachable_pending|done].
Qed.

(** C1 holds on a concrete run: two payloads queued on a new instance. *)
Lemma queue_flushed_in_order_witness :
  LilaClient.live Scenario.client = None /\
  valid_port (port (options Scenario.client)) = true /\
  exists w3,
    step Scenario.unparsed (SocketConnect 0)
      (fst (connect (fold_left (fun w p => send p w) ["a"; "b"] Scenario.client)))
    = Some w3 /\
    written <$> attempts w3 !! 0
    = Some [handshake Scenario.id; line "a"; line "b"].
Proof.
  split; [reflexivity|]. split; [reflexivity|].
  destruct (queue_flushed_in_order Scenario.unparsed Scenario.client ["a"; "b"]
              eq_refl eq_refl) as (_ & _ & _ & w3 & Hstep & _ & _ & Hw & _).
  exists w3. split; [exact Hstep|exact Hw].
Defined.

(** C1 as stated fails: an empty payload queued while disconnected is
    dropped by the flush; only the handshake is written. *)
Lemma empty_payload_never_sent :
  Scenario.trace [Send ""; Connect]
  = Some (connecting, [""], [(false, [], None)]) /\
  Scenario.trace [Send ""; Connect; SocketConnect 0]
  = Some (connected, [], [(false, [handshake Scenario.id], Some true)]).
Proof. split; vm_compute; reflexivity. Qed.


(** C3 on a concrete run: [connect] on the client whose first handle is
    still connecting. *)
Lemma connect_resolution_witness :
  reachable Scenario.unparsed Scenario.pending /\
  live Scenario.pending = Some 0 /\
  connect Scenario.pending = (Scenario.pending, Resolved true).
Proof.
  split; [apply reachable_pending|]. split; [reflexivity|].
  destruct (connect_resolution Scenario.unparsed Scenario.pending
              reachable_pending) as (Hshort & _).
  apply (Hshort 0). reflexivity.
Defined.

(** C3 as stated fails: a second [connect] made while the first is still
    connecting returns [true] although the state is [connecting], and the
    call in flight then resolves [false] on its timeout. *)
Lemma second_connect_true_while_connecting :
  getState Scenario.pending = connecting /\
  snd (connect Scenario.pending) = Resolved true /\
  Scenario.trace [Connect; Connect; TimerFires 0]
  = Some (error, [], [(true, [], Some false)]).
Proof. repeat split; vm_compute; reflexivity. Qed.

(** [connect] with port 65536: the observer is told [connecting], the
    promise is rejected, and there is no socket and no timer; a later
    [connect] does the same again. *)
Lemma connect_rejected_on_bad_port :
  connect Scenario.misconfigured
  = (mkWorld (options Scenario.misconfigured) None connecting Scenario.id [] []
       [connecting],
     Rejected) /\
  Scenario.view
    (run Scenario.unparsed [Connect; Connect] Scenario.misconfigured)
  = Some (connecting, [], []).
Proof. split; vm_compute; reflexivity. Qed.

(** C4 on a concrete run: a send on the established handle. *)
Lemma send_gated_on_handle_witness :
  state Scenario.online = connected /\
  live Scenario.online = Some 0 /\
  messageQueue (send "1+1" Scenario.online) = [] /\
  written <$> attempts (send "1+1" Scenario.online) !! 0
  = Some [handshake Scenario.id; line "1+1"].
Proof.
  split; [reflexivity|]. split; [reflexivity|].
  destruct (send_gated_on_handle Scenario.online "1+1") as [_ Hlive].
  destruct (Hlive 0 (opened Scenario.id [] fresh) eq_refl eq_refl eq_refl)
    as [Hq Ha].
  split; [exact Hq|]. rewrite Ha. reflexivity.
Defined.

(** C4 as stated fails, both ways.  Once the runtime has destroyed the
    handle and before the 'close' event is delivered, the state still reads
    [connected], and a send is queued instead of transmitted.  And while the
    state is [connecting], a send is written to the half-open handle instead
    of queued. *)
Lemma send_queued_while_connected :
  Scenario.trace [Connect; SocketConnect 0; Teardown 0 false]
  = Some (connected, [], [(true, [handshake Scenario.id], Some true)]) /\
  Scenario.trace [Connect; SocketConnect 0; Teardown 0 false; Send "1+1"]
  = Some (connected, ["1+1"], [(true, [handshake Scenario.id], Some true)]) /\
  Scenario.trace [Connect]
  = Some (connecting, [], [(false, [], None)]) /\
  Scenario.trace [Connect; Send "1+1"]
  = Some (connecting, [], [(false, [line "1+1"], None)]).
Proof. repeat split; vm_compute; reflexivity. Qed.

(** C5 on a concrete run: the first handle never answers. *)
Lemma timeout_while_connecting_witness :
  reachable Scenario.unparsed Scenario.pending /\
  state Scenario.pending = connecting /\
  exists w', step Scenario.unparsed (TimerFires 0) Scenario.pending = Some w' /\
    state w' = error /\
    settled <$> attempts w' !! 0 = Some (Some false) /\
    destroyed <$> attempts w' !! 0 = Some true /\
    live w' = None.
Proof.
  split; [apply reachable_pending|]. split; [reflexivity|].
  destruct (timeout_while_connecting Scenario.unparsed Scenario.pending 0 fresh
              reachable_pending eq_refl (ex_intro _ 5000%Z eq_refl)
              eq_refl eq_refl eq_refl)
    as (_ & _ & w' & Hstep & Hst & Hs & Hd & Hl & _).
  exists w'. repeat split; assumption.
Defined.

(** C5 as stated fails: the handle neither connects nor errors, but
    [disconnect] is called before the 5 seconds are over; the timer then
    finds a state that is not [connecting] and does nothing: the state is
    not [error] and the call is never resolved. *)
Lemma timeout_after_disconnect :
  Scenario.trace [Connect; Disconnect; SocketClose 0; TimerFires 0]
  = Some (disconnected, [], [(true, [], None)]).
Proof. vm_compute; reflexivity. Qed.

(** C6 fails on the code: a payload sent while the handle is connecting is
    written to that handle at once, so it is on the handle before the
    handshake line that the connect callback writes. *)
Theorem payload_before_handshake :
  Scenario.trace [Connect; Send "1+1"; SocketConnect 0]
  = Some (connected, [],
          [(false, [line "1+1"; handshake Scenario.id], Some true)]).
Proof. vm_compute; reflexivity. Qed.

(** C7 on a concrete run. *)
Lemma queue_empty_when_connected_witness :
  reachable Scenario.unparsed Scenario.online /\
  isConnected Scenario.online = true /\
  messageQueue Scenario.online = [].
Proof.
  split; [apply reachable_online|]. split; [reflexivity|].
  apply (queue_empty_when_connected Scenario.unparsed Scenario.online
           reachable_online).
  reflexivity.
Defined.

(** C7 as stated fails: the state is [connected] and the queue is not
    empty, after a send that falls between the loss of the handle and the
    delivery of its 'close' event. *)
Lemma queued_while_state_connected :
  Scenario.trace [Send "a"; Connect; SocketConnect 0; Teardown 0 false;
                  Send "b"]
  = Some (connected, ["b"],
          [(true, [handshake Scenario.id; line "a"], Some true)]).
Proof. vm_compute; reflexivity. Qed.

(** C9 on a concrete run: the observer of a new, disconnected client is
    told "disconnected" by [disconnect]. *)
Lemma observer_told_every_assignment_witness :
  state Scenario.client = disconnected /\
  state (disconnect Scenario.client) = disconnected /\
  outside (disconnect Scenario.client) = [disconnected].
Proof.
  split; [reflexivity|].
  destruct (observer_told_every_assignment Scenario.unparsed Scenario.client
              (fun s told => told ++ [s]) eq_refl) as (_ & Hd & _).
  exact (Hd eq_refl).
Defined.

(** The timers are never cleared: the timer of an earlier call, firing
    while a later call is connecting, destroys the handle of the later call,
    whose own timer then finds the state changed and leaves the call
    unresolved. *)
Lemma stale_timer_destroys_later_attempt :
  Scenario.trace [Connect; SocketConnect 0; Disconnect; SocketClose 0;
                  Connect; TimerFires 0]
  = Some (error, [],
          [(true, [handshake Scenario.id], Some true); (true, [], None)]) /\
  Scenario.trace [Connect; SocketConnect 0; Disconnect; SocketClose 0;
                  Connect; TimerFires 0; SocketClose 1; TimerFires 1]
  = Some (disconnected, [],
          [(true, [handshake Scenario.id], Some true); (true, [], None)]).
Proof. split; vm_compute; reflexivity. Qed.

End ClientFacts.

(** *** The launcher *)
Module ServerFacts.
Import JS LilaServer.

Lemma setState_fields st s :
  process (setState st s) = process s /\ killed (setState st s) = killed s /\
  terminals (setState st s) = terminals s /\ terminal (setState st s) = terminal s.
Proof. done. Qed.

(** No method assigns [process]; so nothing is ever killed either. *)
Lemma step_process op s :
  process s = None -> killed s = [] ->
  process (step op s) = None /\ killed (step op s) = [].
Proof.
  intros Hp Hk. destruct op as [l| |]; simpl.
  - unfold start. rewrite Hp. by destruct l.
  - unfold stop. destruct (terminal s); simpl; by rewrite Hp.
  - unfold showTerminal. by destruct (terminal s).
Qed.

Lemma reachable_process s : reachable s -> process s = None /\ killed s = [].
Proof.
  induction 1 as [path|op s _ [Hp Hk]]; [done|]. by apply step_process.
Qed.

(** [start] with no process handle, by what the editor does. *)
Lemma start_without_process l s :
  process s = None ->
  start l s =
  match l with
  | Launched =>
      (mkServer (serverPath s) None running (Some (length (terminals s)))
         (terminals s ++ [mkTerminal "Lila Server" (serverPath s) 1 false])
         (killed s) (messages s) (assigned s ++ [starting; running]),
       true)
  | CreateTerminalThrows e =>
      (mkServer (serverPath s) None error (terminal s) (terminals s) (killed s)
         (messages s ++ [[Lit "Failed to start Lila server: "; Lit e]])
         (assigned s ++ [starting; error]),
       false)
  | ShowThrows e =>
      (mkServer (serverPath s) None error (Some (length (terminals s)))
         (terminals s ++ [mkTerminal "Lila Server" (serverPath s) 0 false])
         (killed s)
         (messages s ++ [[Lit "Failed to start Lila server: "; Lit e]])
         (assigned s ++ [starting; error]),
       false)
  end.
Proof.
  intros Hp. unfold start. rewrite Hp. destruct l; simpl.
  - unfold setState, on_terminal. simpl. rewrite Hp. f_equal. f_equal.
    + rewrite alter_app_r_alt; [|done]. by rewrite Nat.sub_diag.
    + by rewrite <- app_assoc.
  - unfold failed, setState, showErrorMessage. simpl.
    rewrite Hp. by rewrite <- app_assoc.
  - unfold failed, setState, showErrorMessage. simpl.
    rewrite Hp. by rewrite <- app_assoc.
Qed.

(** The early return of [start], taken only with a process handle. *)
Lemma start_holding_process l s p :
  process s = Some p -> start l s = (s, true).
Proof. unfold start. by intros ->. Qed.

(** C10, amended.  In every reachable state the process handle is null and
    no process was ever killed; so [stop] kills nothing, and [start] never
    returns early: it assigns [starting] again, whatever the state was,
    [running] included.  When the editor's calls return, it creates and
    shows one more terminal, makes it the current one and returns [true].
    When [createTerminal] throws, no terminal is created or shown and the
    one held stays held; when [show] throws, the new terminal is created
    and held but not shown; in both cases the state is [error] and [start]
    returns [false]. *)
Theorem process_handle_never_set s :
  reachable s ->
  process s = None /\
  killed s = [] /\
  killed (stop s) = [] /\
  (forall l, exists st, assigned (fst (start l s)) = assigned s ++ [starting; st]) /\
  terminals (fst (start Launched s))
  = terminals s ++ [mkTerminal "Lila Server" (serverPath s) 1 false] /\
  terminal (fst (start Launched s)) = Some (length (terminals s)) /\
  snd (start Launched s) = true /\
  (forall e,
     terminals (fst (start (CreateTerminalThrows e) s)) = terminals s /\
     terminal (fst (start (CreateTerminalThrows e) s)) = terminal s /\
     state (fst (start (CreateTerminalThrows e) s)) = error /\
     snd (start (CreateTerminalThrows e) s) = false) /\
  (forall e,
     terminals (fst (start (ShowThrows e) s))
     = terminals s ++ [mkTerminal "Lila Server" (serverPath s) 0 false] /\
     terminal (fst (start (ShowThrows e) s)) = Some (length (terminals s)) /\
     state (fst (start (ShowThrows e) s)) = error /\
     snd (start (ShowThrows e) s) = false).
Proof.
  intros Hr. destruct (reachable_process s Hr) as [Hp Hk].
  split; [done|]. split; [done|]. split.
  { by destruct (step_process Stop s Hp Hk). }
  split.
  { intros l. rewrite (start_without_process l s Hp). destruct l; by eexists. }
  rewrite (start_without_process Launched s Hp).
  split; [done|]. split; [done|]. split; [done|].
  split; intros e.
  - by rewrite (start_without_process (CreateTerminalThrows e) s Hp).
  - by rewrite (start_without_process (ShowThrows e) s Hp).
Qed.

(** C10 on a concrete run: a server that is already running. *)
Lemma process_handle_never_set_witness :
  reachable (run [Start Launched] (create "lila_server")) /\
  isRunning (run [Start Launched] (create "lila_server")) = true /\
  terminals (fst (start Launched (run [Start Launched] (create "lila_server"))))
  = [mkTerminal "Lila Server" "lila_server" 1 false;
     mkTerminal "Lila Server" "lila_server" 1 false].
Proof.
  assert (reachable (run [Start Launched] (create "lila_server"))) as Hr.
  { apply (reach_step (Start Launched)). apply reach_create. }
  split; [exact Hr|]. split; [reflexivity|].
  destruct (process_handle_never_set _ Hr) as (_ & _ & _ & _ & Ht & _).
  exact Ht.
Defined.

(** C10 as stated fails: a [start] during which [createTerminal] throws
    creates and shows no terminal; it shows the failure message, ends in
    state [error] and returns [false]. *)
Lemma failed_start_creates_no_terminal :
  start (CreateTerminalThrows "spawn failed") (create "lila_server")
  = (mkServer "lila_server" None error None [] []
       [[Lit "Failed to start Lila server: "; Lit "spawn failed"]]
       [starting; error],
     false) /\
  terminals (run [Start Launched; Start (CreateTerminalThrows "spawn failed")]
               (create "lila_server"))
  = [mkTerminal "Lila Server" "lila_server" 1 false].
Proof. split; reflexivity. Qed.

(** C8 fails on the code: a server that holds the terminal of a first
    [start] and is [running] does not return at once on a second [start];
    it goes through [starting] and [running] again and opens a second
    terminal, the first one left open and no longer referenced. *)
Theorem second_start_launches_again :
  run [Start Launched] (create "lila_server")
  = mkServer "lila_server" None running (Some 0)
      [mkTerminal "Lila Server" "lila_server" 1 false] [] []
      [starting; running] /\
  start Launched (run [Start Launched] (create "lila_server"))
  = (mkServer "lila_server" None running (Some 1)
       [mkTerminal "Lila Server" "lila_server" 1 false;
        mkTerminal "Lila Server" "lila_server" 1 false] [] []
       [starting; running; starting; running],
     true).
Proof. split; reflexivity. Qed.

End ServerFacts.

(** *** [trim] and the white-space table *)
Module TrimFacts.
Import JS.

Lemma append_cons a s t : String a s +:+ t = String a (s +:+ t).
Proof. reflexivity. Qed.

Lemma append_assoc s1 s2 s3 : (s1 +:+ s2) +:+ s3 = s1 +:+ (s2 +:+ s3).
Proof.
  induction s1 as [|a s1 IH]; [done|]. rewrite !append_cons. by rewrite IH.
Qed.

Lemma rev_app_append s1 s2 : String.rev_app s1 s2 = String.rev_app s1 "" +:+ s2.
Proof.
  revert s2. induction s1 as [|a s1 IH]; intros s2; simpl; [done|].
  rewrite IH, (IH (String a "")), append_assoc. done.
Qed.

Lemma rev_cons a s : String.rev (String a s) = String.rev s +:+ String a "".
Proof. unfold String.rev. simpl. apply rev_app_append. Qed.

Lemma append_empty_r s : s +:+ "" = s.
Proof. induction s as [|a s IH]; [done|]. rewrite append_cons. by rewrite IH. Qed.

Lemma rev_app_rev_app s1 s2 s3 :
  String.rev_app (String.rev_app s1 s2) s3 = String.rev_app s2 (s1 +:+ s3).
Proof.
  revert s2 s3. induction s1 as [|a s1 IH]; intros s2 s3; simpl; [done|].
  by rewrite IH.
Qed.

Lemma rev_involutive s : String.rev (String.rev s) = s.
Proof. unfold String.rev. rewrite rev_app_rev_app. simpl. apply append_empty_r. Qed.

Lemma rev_empty s : String.rev s = "" -> s = "".
Proof. intros Hr. rewrite <- (rev_involutive s), Hr. done. Qed.

Lemma blank_app x y : blank x -> blank y -> blank (x +:+ y).
Proof.
  induction 1 as [|w s Hw _ IH]; intros Hy; simpl; [done|].
  rewrite append_assoc. apply blank_cons; auto.
Qed.

Lemma blank_one w : In w WhiteSpace -> blank w.
Proof.
  intros Hw. rewrite <- (append_empty_r w). apply blank_cons; [done|constructor].
Qed.

(** Every entry of the table is stripped from the front. *)
Lemma strip_whitespace w s :
  In w WhiteSpace -> strip false (w +:+ s) = strip false s.
Proof.
  intros Hw. unfold WhiteSpace in Hw. simpl in Hw.
  repeat (destruct Hw as [<-|Hw]; [reflexivity|]). done.
Qed.

Lemma blank_strip s : blank s -> strip false s = "".
Proof.
  induction 1 as [|w s Hw _ IH]; [done|]. by rewrite strip_whitespace.
Qed.

Lemma blank_trim s : blank s -> trim s = "".
Proof. intros Hb. unfold trim, trimStart. by rewrite blank_strip. Qed.

(** What the byte tests accept is in the table. *)
Lemma code_byte a n : code a = n -> a = byte n.
Proof. intros <-. unfold byte, code. by rewrite ascii_nat_embedding. Qed.

Ltac in_table := simpl; repeat (first [left; reflexivity | right]).

Lemma ws1_table a : ws1 a = true -> In (String a "") WhiteSpace.
Proof.
  destruct a as [[] [] [] [] [] [] [] []]; vm_compute; intros Hw;
    try discriminate Hw; in_table.
Qed.

Lemma ws2_table a b : ws2 a b = true -> In (String a (String b "")) WhiteSpace.
Proof.
  unfold ws2. rewrite andb_true_iff, !Nat.eqb_eq.
  intros [Ha Hb]. apply code_byte in Ha as ->. apply code_byte in Hb as ->.
  in_table.
Qed.

Lemma ws3_table a b c :
  ws3 a b c = true -> In (String a (String b (String c ""))) WhiteSpace.
Proof.
  unfold ws3. cbv zeta.
  rewrite !orb_true_iff, !andb_true_iff, !orb_true_iff, !andb_true_iff,
    !Nat.eqb_eq, !Nat.leb_le.
  intros Hw.
  assert (exists x y z, code a = x /\ code b = y /\ code c = z /\
            ((x = 225 /\ y = 154 /\ z = 128) \/
             (x = 226 /\ y = 128 /\
              (z = 128 \/ z = 129 \/ z = 130 \/ z = 131 \/ z = 132 \/ z = 133 \/
               z = 134 \/ z = 135 \/ z = 136 \/ z = 137 \/ z = 138 \/
               z = 168 \/ z = 169 \/ z = 175)) \/
             (x = 226 /\ y = 129 /\ z = 159) \/
             (x = 227 /\ y = 128 /\ z = 128) \/
             (x = 239 /\ y = 187 /\ z = 191)))
    as (x & y & z & Ha & Hb & Hc & Hcases).
  { exists (code a), (code b), (code c). repeat split. lia. }
  apply code_byte in Ha as ->. apply code_byte in Hb as ->.
  apply code_byte in Hc as ->.
  repeat (destruct Hcases as [Hcases|Hcases]);
    repeat (match goal with H : _ /\ _ |- _ => destruct H as [? ?] end);
    repeat (match goal with H : _ \/ _ |- _ => destruct H as [?|?] end);
    subst; in_table.
Qed.

(** A string that strips to nothing is white space.  The reversed scan
    reads the bytes of each character last byte first, so it recognises
    the reversal. *)
Lemma strip_empty n : forall s,
  String.length s <= n ->
  (strip false s = "" -> blank s) /\
  (strip true s = "" -> blank (String.rev s)).
Proof.
  induction n as [|n IH]; intros s Hn.
  { destruct s; simpl in Hn; [|lia]. split; intros _; constructor. }
  destruct s as [|a r]; [split; intros _; constructor|].
  simpl in Hn.
  assert (forall rv : bool, ws1 a = true ->
            strip rv (String a r) = strip rv r) as H1.
  { intros rv E. simpl. by rewrite E. }
  destruct (ws1 a) eqn:E1.
  { destruct (IH r ltac:(lia)) as [IHf IHr]. split; intros Hs.
    - rewrite H1 in Hs by done.
      apply (blank_cons (String a "") r); [by apply ws1_table|by apply IHf].
    - rewrite H1 in Hs by done. rewrite rev_cons.
      apply blank_app; [by apply IHr|]. apply blank_one. by apply ws1_table. }
  destruct r as [|b r2]; [split; simpl; rewrite E1; done|].
  simpl in Hn.
  destruct (IH r2 ltac:(lia)) as [IHf2 IHr2].
  assert (forall r3, String.length r3 <= n -> 
            (strip false r3 = "" -> blank r3) /\
            (strip true r3 = "" -> blank (String.rev r3))) as IH'.
  { intros r3 H3. apply IH. lia. }
  split; intros Hs; simpl in Hs; rewrite E1 in Hs.
  - destruct (ws2 a b) eqn:E2.
    { apply (blank_cons (String a (String b "")) r2);
        [by apply ws2_table|by apply IHf2]. }
    destruct r2 as [|c r3]; [done|].
    destruct (ws3 a b c) eqn:E3; [|done].
    apply (blank_cons (String a (String b (String c ""))) r3);
      [by apply ws3_table|]. apply IH'; [simpl in Hn; lia|done].
  - destruct (ws2 b a) eqn:E2.
    { rewrite !rev_cons, append_assoc.
      apply blank_app; [by apply IHr2|]. apply blank_one.
      by apply (ws2_table b a). }
    destruct r2 as [|c r3]; [done|].
    destruct (ws3 c b a) eqn:E3; [|done].
    rewrite !rev_cons, !append_assoc.
    apply blank_app; [apply IH'; [simpl in Hn; lia|done]|].
    apply blank_one. by apply (ws3_table c b a).
Qed.

Lemma strip_idempotent n : forall s,
  String.length s <= n -> strip false (strip false s) = strip false s.
Proof.
  induction n as [|n IH]; intros s Hn.
  { destruct s; simpl in Hn; [done|lia]. }
  destruct s as [|a r]; [done|]. simpl in Hn. simpl.
  destruct (ws1 a) eqn:E1; [apply IH; lia|].
  destruct r as [|b r2]; [simpl; by rewrite E1|]. simpl in Hn.
  destruct (ws2 a b) eqn:E2; [apply IH; lia|].
  destruct r2 as [|c r3]; [simpl; by rewrite E1, E2|]. simpl in Hn.
  destruct (ws3 a b c) eqn:E3; [apply IH; lia|].
  simpl. by rewrite E1, E2, E3.
Qed.

Lemma trim_empty_blank s : trim s = "" -> blank s.
Proof.
  unfold trim, trimEnd, trimStart. intros Ht. apply rev_empty in Ht.
  destruct (strip_empty _ (String.rev (strip false s)) (le_n _)) as [_ Hr].
  specialize (Hr Ht). rewrite rev_involutive in Hr.
  apply blank_strip in Hr.
  rewrite (strip_idempotent _ s (le_n _)) in Hr.
  by apply (strip_empty _ s (le_n _)).
Qed.

(** [handleData] ignores exactly the chunks that are empty or made of white
    space only. *)
Lemma ignored_blank data : LilaClient.ignored data = true <-> blank data.
Proof.
  unfold LilaClient.ignored. rewrite orb_true_iff. split.
  - intros [He|Ht].
    + destruct data; [constructor|done].
    + apply trim_empty_blank. by apply String.eqb_eq.
  - intros Hb. right. apply String.eqb_eq. by apply blank_trim.
Qed.

End TrimFacts.

(** *** Inbound chunks, from the socket to the output channel *)
Module SessionFacts.
Import JS LilaClient LilaSession.

Lemma get_field v key : v <> JNull -> get v key = Some (field v key).
Proof. unfold field. by destruct v. Qed.

Lemma or_else_throws m d : throws (or_else m d) = throws m.
Proof.
  unfold or_else. destruct (truthy m) eqn:E; [done|].
  by destruct m as [[]|].
Qed.

(** [handleResponse] throws, with nothing shown, on a document whose
    message it cannot convert. *)
Lemma handleResponse_unprintable v ui :
  v <> JNull -> unprintable v = true -> handleResponse v ui = Thrown ui.
Proof.
  intros Hv Hu. unfold handleResponse. rewrite !get_field by done.
  rewrite !or_else_throws. unfold unprintable in Hu.
  apply andb_true_iff in Hu as [Hs ->].
  destruct (is_string (field v "status") "success"); [done|].
  by destruct (is_string (field v "status") "error").
Qed.

(** [handleResponse] on any other document that is not [null], branch by
    branch. *)
Lemma handleResponse_display v ui :
  v <> JNull -> unprintable v = false ->
  handleResponse v ui =
  Done (ui ++ display
          (if is_string (field v "status") "success"
           then Success (field v "message")
           else if is_string (field v "status") "error"
           then ErrorResult (field v "message")
           else if truthy (field v "result")
           then ValueResult (field v "result")
           else Unclassified v)).
Proof.
  intros Hv Hu. unfold handleResponse. rewrite !get_field by done.
  rewrite !or_else_throws. unfold unprintable in Hu.
  destruct (is_string (field v "status") "success");
    [simpl in Hu; by rewrite Hu|].
  destruct (is_string (field v "status") "error");
    [simpl in Hu; rewrite Hu; simpl; by rewrite <- app_assoc|].
  by destruct (truthy (field v "result")).
Qed.

Lemma handleResponse_raw data ui :
  handleResponse (raw data) ui = Done (ui ++ display (Raw data)).
Proof. done. Qed.

Section Decoding.
Variable JSON_parse : string -> option JSON.

(** C2, amended.  A chunk that is empty or white space only reaches no
    handler.  Any other chunk that [JSON.parse] rejects is handed to the
    response handler once, as the raw object carrying the whole chunk; the
    session shows it as such.  Any other chunk that parses to a document
    other than [null], and whose message converts to a string where the
    session prints it, is shown by the session according to its fields:
    [status] "success", else [status] "error", else a [result] that is
    truthy, else unclassified.  A chunk that parses to [null], or to a
    document with [status] "success" or "error" whose message does not
    convert to a string, makes the session's handler throw before it shows
    anything, and is then shown as a raw chunk. *)
Theorem inbound_decoding (w : World (list Ui)) (data : string) :
  (blank data -> handleData JSON_parse data w = Done w) /\
  (~ blank data -> JSON_parse data = None ->
   forall f, onResponse (options w) = Some f ->
     handleData JSON_parse data w
     = match f (raw data) (outside w) with
       | Done h => Done (with_outside h w)
       | Thrown h => Thrown (with_outside h w)
       end) /\
  (~ blank data -> JSON_parse data = None ->
   onResponse (options w) = Some handleResponse ->
   handleData JSON_parse data w
   = Done (with_outside (outside w ++ display (Raw data)) w)) /\
  (~ blank data -> forall v, JSON_parse data = Some v -> v <> JNull ->
   unprintable v = false ->
   onResponse (options w) = Some handleResponse ->
   handleData JSON_parse data w
   = Done (with_outside
             (outside w ++ display
                (if is_string (field v "status") "success"
                 then Success (field v "message")
                 else if is_string (field v "status") "error"
                 then ErrorResult (field v "message")
                 else if truthy (field v "result")
                 then ValueResult (field v "result")
                 else Unclassified v))
             w)) /\
  (~ blank data -> forall v, JSON_parse data = Some v ->
   v = JNull \/ unprintable v = true ->
   onResponse (options w) = Some handleResponse ->
   handleData JSON_parse data w
   = Done (with_outside (outside w ++ display (Raw data)) w)).
Proof.
  assert (~ blank data -> ignored data = false) as Hni.
  { intros Hb. destruct (ignored data) eqn:E; [|done].
    by apply TrimFacts.ignored_blank in E. }
  split; [|split; [|split; [|split]]].
  - intros Hb. apply TrimFacts.ignored_blank in Hb.
    unfold handleData. by rewrite Hb.
  - intros Hb Hp f Hf. unfold handleData, deliver.
    by rewrite (Hni Hb), Hp, Hf.
  - intros Hb Hp Hf. unfold handleData, deliver.
    by rewrite (Hni Hb), Hp, Hf.
  - intros Hb v Hp Hv Hu Hf. unfold handleData, deliver.
    rewrite (Hni Hb), Hp, Hf. by rewrite handleResponse_display.
  - intros Hb v Hp Hv Hf. unfold handleData, deliver.
    rewrite (Hni Hb), Hp, Hf.
    assert (handleResponse v (outside w) = Thrown (outside w)) as ->.
    { destruct Hv as [->|Hu]; [done|].
      apply handleResponse_unprintable; [|done].
      intros ->. discriminate Hu. }
    by rewrite handleResponse_raw.
Qed.

End Decoding.

Lemma success_text_not_blank : ~ blank Scenario.success_text.
Proof. intros Hb. by apply TrimFacts.ignored_blank in Hb. Qed.

(** C2 on a concrete chunk: the success document of the examples. *)
Lemma inbound_decoding_witness :
  ~ blank Scenario.success_text /\
  Scenario.parse Scenario.success_text = Some Scenario.success_doc /\
  handleData Scenario.parse Scenario.success_text Scenario.session
  = Done (with_outside (display (Success (Some (JString "ok"))))
            Scenario.session).
Proof.
  split; [exact success_text_not_blank|]. split; [reflexivity|].
  destruct (inbound_decoding Scenario.parse Scenario.session
              Scenario.success_text) as (_ & _ & _ & Hdoc & _).
  apply (Hdoc success_text_not_blank Scenario.success_doc eq_refl);
    [discriminate|reflexivity|reflexivity].
Defined.

(** C2 as stated fails: a document with a [result] field whose value is 0
    is specified as a value result, and the session shows it as an
    unclassified document. *)
Lemma result_zero_unclassified :
  classify_as_specified Scenario.zero_doc = ValueResult (Some (JNumber 0)) /\
  Scenario.parse Scenario.zero_text = Some Scenario.zero_doc /\
  handleData Scenario.parse Scenario.zero_text Scenario.session
  = Done (with_outside (display (Unclassified Scenario.zero_doc))
            Scenario.session).
Proof. repeat split; vm_compute; reflexivity. Qed.

(** An error document whose message has an own property [toString] makes
    [handleResponse] throw in its first template literal, before anything
    is shown; the [catch] then delivers the chunk as raw, and no dialog is
    raised. *)
Lemma unprintable_shown_raw :
  Scenario.parse Scenario.odd_text = Some Scenario.odd_doc /\
  unprintable Scenario.odd_doc = true /\
  handleResponse Scenario.odd_doc [] = Thrown [] /\
  handleData Scenario.parse Scenario.odd_text Scenario.session
  = Done (with_outside (display (Raw Scenario.odd_text)) Scenario.session).
Proof. repeat split; vm_compute; reflexivity. Qed.

(** The document [null] parses, makes [handleResponse] throw on its first
    property read, and is then delivered by the [catch] as a raw chunk. *)
Lemma null_shown_raw :
  Scenario.parse "null" = Some JNull /\
  handleResponse JNull [] = Thrown [] /\
  handleData Scenario.parse "null" Scenario.session
  = Done (with_outside (display (Raw "null")) Scenario.session).
Proof. repeat split; vm_compute; reflexivity. Qed.

End SessionFacts.

(** *** Further properties of the client *)
Module ClientMore.
Import JS LilaClient LilaClientAux ClientFacts.

Section More.
Context {H : Type} (JSON_parse : string -> option JSON).
Implicit Types (w : World H) (a : Attempt) (k j : nat).

Lemma grown_refl a : grown a a.
Proof. split; [done|]. exists []. by rewrite app_nil_r. Qed.

Lemma grown_trans a0 a1 a2 : grown a0 a1 -> grown a1 a2 -> grown a0 a2.
Proof.
  intros [E1 [l1 W1]] [E2 [l2 W2]]. split; [congruence|].
  exists (l1 ++ l2). by rewrite W2, W1, app_assoc.
Qed.

Lemma grown_alter (f : Attempt -> Attempt) k (l : list Attempt) j a' :
  (forall a, grown a (f a)) ->
  alter f k l !! j = Some a' ->
  exists a, l !! j = Some a /\ grown a a'.
Proof.
  intros Hf Hj. apply lookup_alter_cases in Hj as (a & Hj & [[_ ->]|[_ ->]]);
    exists a; split; auto using grown_refl.
Qed.

Lemma grown_flag (f : Attempt -> Attempt) :
  (forall a, established (f a) = established a /\ written (f a) = written a) ->
  forall a, grown a (f a).
Proof.
  intros Hf a. destruct (Hf a) as [E W]. split; [done|].
  exists []. by rewrite app_nil_r.
Qed.

Lemma grown_destroy a : grown a (destroy a).
Proof.
  apply grown_flag. intros b. unfold destroy. by destruct (destroyed b).
Qed.

Lemma grown_teardown err a : grown a (teardown err a).
Proof.
  apply grown_flag. intros b. unfold teardown. by destruct (destroyed b).
Qed.

Lemma grown_write s a : grown a (write s a).
Proof. split; [done|]. by exists [s]. Qed.

Lemma grown_destroySocket w j a' :
  attempts (destroySocket w) !! j = Some a' ->
  exists a, attempts w !! j = Some a /\ grown a a'.
Proof.
  intros Hj. apply lookup_destroySocket in Hj as (a & Hj & [[_ ->]|[_ ->]]);
    exists a; split; auto using grown_refl, grown_destroy.
Qed.

(** What one transition makes of the attempts: a new one is fresh; the one
    whose connect callback runs is opened; every other one keeps its
    [established] flag and what was written to it, with more after it. *)
Lemma step_attempt op w w' j a' :
  inv w -> step JSON_parse op w = Some w' -> attempts w' !! j = Some a' ->
  (attempts w !! j = None /\ a' = fresh) \/
  exists a, attempts w !! j = Some a /\
    (grown a a' \/
     (established a = false /\
      a' = opened (sessionId w) (messageQueue w) a)).
Proof.
  intros Hi Hstep Hj.
  assert (forall a, attempts w !! j = Some a -> grown a a' ->
            (attempts w !! j = None /\ a' = fresh) \/
            exists a, attempts w !! j = Some a /\
              (grown a a' \/
               (established a = false /\
                a' = opened (sessionId w) (messageQueue w) a))) as Hgrown.
  { intros a Ha Hg. right. exists a. auto. }
  destruct op as [| |c|k|k chunk|k|k|k|k err]; simpl in Hstep.
  - injection Hstep as <-. unfold connect in Hj.
    destruct (live w); [by eauto using grown_refl|]. simpl in Hj.
    destruct (valid_port _); simpl in Hj; rewrite setState_attempts in Hj;
      [|by eauto using grown_refl].
    apply lookup_app_Some in Hj as [Hj|[Hlen Hj]];
      [by eauto using grown_refl|].
    apply list_lookup_singleton_Some in Hj as [_ <-]. left.
    split; [|done]. by apply lookup_ge_None_2.
  - injection Hstep as <-. unfold disconnect in Hj.
    rewrite setState_attempts in Hj.
    destruct (socket w) eqn:Hs; [|by eauto using grown_refl].
    change (attempts (destroySocket w) !! j = Some a') in Hj.
    apply grown_destroySocket in Hj as (a & Ha & Hg). eauto.
  - injection Hstep as <-. unfold send in Hj.
    destruct (live w); [|by eauto using grown_refl].
    simpl in Hj. apply grown_alter in Hj as (a & Ha & Hg);
      eauto using grown_write.
  - destruct (attempts w !! k) as [a|] eqn:Hk; [|done].
    destruct (destroyed a) eqn:D; [done|].
    destruct (established a) eqn:E; [done|]. simpl in Hstep.
    rewrite (onConnect_live _ w k) in Hstep; [|by eapply inv_live|lia].
    injection Hstep as <-. simpl in Hj. rewrite setState_attempts in Hj.
    apply lookup_alter_cases in Hj as (a0 & Hj & [[_ ->]|[-> ->]]).
    + eauto using grown_refl.
    + right. exists a0. split; [done|]. right. split; [congruence|done].
  - destruct (attempts w !! k) as [a|]; [|done].
    destruct (established a && negb (destroyed a)); [|done].
    injection Hstep as <-.
    destruct (handleData_after JSON_parse chunk w) as [h Hh].
    rewrite Hh in Hj. eauto using grown_refl.
  - destruct (attempts w !! k) as [a|]; [|done].
    destruct (errorPending a); [|done]. injection Hstep as <-.
    unfold onError in Hj. autorewrite with fields in Hj.
    apply grown_alter in Hj as (a1 & Hj & Hg1); [|by apply grown_flag].
    apply grown_alter in Hj as (a0 & Hj & Hg0); [|by apply grown_flag].
    eauto using grown_trans.
  - destruct (attempts w !! k) as [a|]; [|done].
    destruct (closePending a && negb (errorPending a)); [|done].
    injection Hstep as <-. unfold onClose in Hj.
    autorewrite with fields in Hj.
    apply grown_alter in Hj as (a0 & Hj & Hg0); [|by apply grown_flag].
    eauto.
  - destruct (attempts w !! k) as [a|]; [|done].
    destruct (timer a); [|done]. injection Hstep as <-.
    unfold onTimeout in Hj. autorewrite with fields in Hj.
    destruct (String.eqb (state w) connecting).
    + autorewrite with fields in Hj.
      apply grown_alter in Hj as (a2 & Hj & Hg2); [|by apply grown_flag].
      apply grown_destroySocket in Hj as (a1 & Hj & Hg1).
      autorewrite with fields in Hj.
      apply grown_alter in Hj as (a0 & Hj & Hg0); [|by apply grown_flag].
      eauto using grown_trans.
    + autorewrite with fields in Hj.
      apply grown_alter in Hj as (a0 & Hj & Hg0); [|by apply grown_flag].
      eauto.
  - destruct (attempts w !! k) as [a|]; [|done].
    destruct (destroyed a); [done|]. injection Hstep as <-.
    autorewrite with fields in Hj.
    apply grown_alter in Hj as (a0 & Hj & Hg0);
      eauto using grown_teardown.
Qed.

(** X1.  A client never holds two live handles: in every reachable world a
    socket that is not destroyed is the one in [this.socket]. *)
Theorem at_most_one_live_handle w j a :
  reachable JSON_parse w ->
  attempts w !! j = Some a -> destroyed a = false ->
  socket w = Some j /\ live w = Some j /\
  forall i b, attempts w !! i = Some b -> destroyed b = false -> i = j.
Proof.
  intros Hr Hj D. pose proof (reachable_inv JSON_parse w Hr) as Hi.
  pose proof (inv_current w Hi j a Hj D) as Hs.
  split; [done|]. split; [by apply (inv_live w j a)|].
  intros i b Hb Db. pose proof (inv_current w Hi i b Hb Db). congruence.
Qed.

(** X2.  The session id is the decimal text of [Date.now()] at construction
    and no method or listener changes it. *)
Theorem session_id_fixed_at_construction (opts : Options H) now h ops w' :
  run JSON_parse ops (create opts now h) = Some w' ->
  sessionId w' = pretty now.
Proof. intros Hrun. by rewrite (sessionId_run JSON_parse ops _ w' Hrun). Qed.

(** X3.  Only two things change the queue: a [send] without a live handle
    appends its text, and the connect callback empties it.  Every other
    transition, [disconnect] and the timer included, leaves it as it is. *)
Theorem queue_changes op w w' :
  reachable JSON_parse w -> step JSON_parse op w = Some w' ->
  messageQueue w' =
  match op with
  | Send c =>
      match live w with
      | Some _ => messageQueue w
      | None => messageQueue w ++ [c]
      end
  | SocketConnect _ => []
  | _ => messageQueue w
  end.
Proof.
  intros Hr Hstep. pose proof (reachable_inv JSON_parse w Hr) as Hi.
  destruct op as [| |c|k|k chunk|k|k|k|k err]; simpl in Hstep.
  - injection Hstep as <-. unfold connect. destruct (live w); [done|].
    simpl. destruct (valid_port _); simpl; apply setState_queue.
  - injection Hstep as <-. unfold disconnect. rewrite setState_queue.
    destruct (socket w); [|done]. simpl. apply destroySocket_queue.
  - injection Hstep as <-. unfold send. by destruct (live w).
  - destruct (attempts w !! k) as [a|] eqn:Hk; [|done].
    destruct (destroyed a) eqn:D; [done|].
    destruct (established a) eqn:E; [done|]. simpl in Hstep.
    rewrite (onConnect_live _ w k) in Hstep; [|by eapply inv_live|lia].
    by injection Hstep as <-.
  - destruct (attempts w !! k) as [a|]; [|done].
    destruct (established a && negb (destroyed a)); [|done].
    injection Hstep as <-.
    by destruct (handleData_after JSON_parse chunk w) as [h ->].
  - destruct (attempts w !! k) as [a|]; [|done].
    destruct (errorPending a); [|done]. injection Hstep as <-.
    unfold onError. by autorewrite with fields.
  - destruct (attempts w !! k) as [a|]; [|done].
    destruct (closePending a && negb (errorPending a)); [|done].
    injection Hstep as <-. unfold onClose. by autorewrite with fields.
  - destruct (attempts w !! k) as [a|]; [|done].
    destruct (timer a); [|done]. injection Hstep as <-.
    unfold onTimeout. autorewrite with fields.
    destruct (String.eqb (state w) connecting); by autorewrite with fields.
  - destruct (attempts w !! k) as [a|]; [|done].
    destruct (destroyed a); [done|]. by injection Hstep as <-.
Qed.

(** X4.  In every reachable world, a handle whose connect callback has run
    has been written the handshake line of the instance. *)
Theorem established_has_handshake w k a :
  reachable JSON_parse w ->
  attempts w !! k = Some a -> established a = true ->
  In (handshake (sessionId w)) (written a).
Proof.
  intros Hr. revert k a.
  induction Hr as [opts now h|op w w' Hr IH Hstep]; intros k a' Hk E.
  { done. }
  pose proof (reachable_inv JSON_parse w Hr) as Hi.
  rewrite (sessionId_step JSON_parse op w w' Hstep).
  destruct (step_attempt op w w' k a' Hi Hstep Hk)
    as [[_ ->]|(a & Ha & [[Eg [l Wg]]|[_ ->]])].
  - done.
  - rewrite Wg. apply in_or_app. left. apply (IH k a Ha). congruence.
  - unfold opened. simpl. apply in_or_app. right. by left.
Qed.

(** X6.  Losing a connection.  From any reachable world with a live handle,
    the runtime destroying it with an error, its 'error' listener and its
    'close' listener can run in that order; they leave the state
    [disconnected] after [error], no handle alive, the queue as it was, and
    the call of that handle resolved ([false] if it was still open). *)
Theorem connection_lost w k a :
  reachable JSON_parse w ->
  attempts w !! k = Some a -> destroyed a = false ->
  exists w', run JSON_parse (lost k) w = Some w' /\
    state w' = disconnected /\
    live w' = None /\
    isConnected w' = false /\
    messageQueue w' = messageQueue w /\
    (forall j b, attempts w' !! j = Some b -> destroyed b = true) /\
    settled <$> attempts w' !! k = Some (Some (default false (settled a))) /\
    (forall f, onStateChange (options w) = Some f ->
       outside w' = f disconnected (f error (outside w))).
Proof.
  intros Hr Hk D. pose proof (reachable_inv JSON_parse w Hr) as Hi.
  pose proof (inv_current w Hi k a Hk D) as Hs.
  set (a1 := teardown true a).
  set (w1 := on_attempt k (teardown true) w).
  assert (step JSON_parse (Teardown k true) w = Some w1) as H1.
  { simpl. by rewrite Hk, D. }
  assert (attempts w1 !! k = Some a1) as Hk1.
  { unfold w1. autorewrite with fields. by rewrite list_lookup_alter_eq, Hk. }
  assert (a1 = mkAttempt true (established a) (written a) true true
                         (settled a) (timer a)) as Ea1.
  { unfold a1, teardown. by rewrite D. }
  set (w2 := onError k (on_attempt k clear_error w1)).
  assert (step JSON_parse (SocketError k) w1 = Some w2) as H2.
  { unfold step. rewrite Hk1, Ea1. done. }
  set (a2 := resolve false (clear_error a1)).
  assert (attempts w2 !! k = Some a2) as Hk2.
  { unfold w2, onError. autorewrite with fields.
    by rewrite !list_lookup_alter_eq, Hk1. }
  set (w3 := onClose (on_attempt k clear_close w2)).
  assert (step JSON_parse (SocketClose k) w2 = Some w3) as H3.
  { unfold step. rewrite Hk2. unfold a2. rewrite Ea1. done. }
  assert (attempts w3 !! k = Some (clear_close a2)) as Hk3.
  { unfold w3, onClose. autorewrite with fields.
    by rewrite list_lookup_alter_eq, Hk2. }
  assert (reachable JSON_parse w3) as Hr3.
  { eapply reach_step; [|exact H3]. eapply reach_step; [|exact H2].
    eapply reach_step; [exact Hr|exact H1]. }
  pose proof (reachable_inv JSON_parse w3 Hr3) as Hi3.
  assert (socket w3 = Some k) as Hs3.
  { unfold w3, onClose, w2, onError, w1. by autorewrite with fields. }
  assert (forall j b, attempts w3 !! j = Some b -> destroyed b = true) as Hall.
  { intros j b Hb. destruct (destroyed b) eqn:Db; [done|].
    pose proof (inv_current w3 Hi3 j b Hb Db) as Hj.
    assert (j = k) as -> by congruence.
    rewrite Hk3 in Hb. injection Hb as <-.
    unfold a2 in Db. rewrite Ea1 in Db. done. }
  assert (live w3 = None) as Hl3.
  { apply live_None. intros i b _ Hb. by apply (Hall i). }
  exists w3. split.
  { unfold lost. cbn [run]. rewrite H1. cbn [run]. rewrite H2.
    cbn [run]. by rewrite H3. }
  split; [unfold w3, onClose; apply setState_state|].
  split; [done|]. split.
  { unfold isConnected. rewrite Hl3. apply andb_false_r. }
  split.
  { unfold w3, onClose, w2, onError, w1. by autorewrite with fields. }
  split; [done|]. split.
  { rewrite Hk3. unfold a2. rewrite Ea1. simpl. by destruct (settled a). }
  intros f Hf. unfold w3, onClose. rewrite setState_outside.
  autorewrite with fields. unfold w2, onError. autorewrite with fields.
  rewrite setState_outside. unfold w1. autorewrite with fields.
  by rewrite Hf.
Qed.

(** X7.  [disconnect] from any reachable world leaves the state
    [disconnected], [this.socket] null and every socket the client ever
    created destroyed; it creates no socket and keeps the queue and the
    session id; a second [disconnect] touches no socket. *)
Theorem disconnect_closes_everything w :
  reachable JSON_parse w ->
  state (disconnect w) = disconnected /\
  socket (disconnect w) = None /\
  isConnected (disconnect w) = false /\
  (forall j a, attempts (disconnect w) !! j = Some a -> destroyed a = true) /\
  length (attempts (disconnect w)) = length (attempts w) /\
  messageQueue (disconnect w) = messageQueue w /\
  sessionId (disconnect w) = sessionId w /\
  attempts (disconnect (disconnect w)) = attempts (disconnect w).
Proof.
  intros Hr. pose proof (reachable_inv JSON_parse w Hr) as Hi.
  pose proof (inv_disconnect w Hi) as Hi'.
  assert (socket (disconnect w) = None) as Hs.
  { unfold disconnect. rewrite setState_socket.
    by destruct (socket w) eqn:E. }
  split; [unfold disconnect; apply setState_state|]. split; [done|].
  split.
  { unfold isConnected, live. rewrite Hs. apply andb_false_r. }
  split.
  { intros j a Hj. destruct (destroyed a) eqn:D; [done|].
    pose proof (inv_current _ Hi' j a Hj D). congruence. }
  split.
  { unfold disconnect, destroySocket. rewrite setState_attempts.
    destruct (socket w); [|done]. simpl. apply length_alter. }
  split.
  { unfold disconnect. rewrite setState_queue.
    destruct (socket w); [|done]. simpl. apply destroySocket_queue. }
  split.
  { unfold disconnect, destroySocket. rewrite setState_sessionId.
    by destruct (socket w). }
  unfold disconnect at 1. rewrite Hs. by rewrite setState_attempts.
Qed.

(** X8.  The loop of [flushQueue] depends on the live handle.  Without one,
    [send] puts every non-empty entry back at the end of the queue: the
    loop never ends as soon as one entry is non-empty, and when all entries
    are empty strings it ends having dropped them all. *)
Theorem flushQueue_without_handle w :
  live w = None ->
  (Exists (fun c => truthy_string c = true) (messageQueue w) ->
   forall fuel, flushQueue fuel w = None) /\
  (Forall (fun c => truthy_string c = false) (messageQueue w) ->
   flushQueue (S (length (messageQueue w))) w = Some (with_queue [] w)).
Proof.
  intros Hl. split.
  - intros Hex fuel. revert w Hl Hex.
    induction fuel as [|fuel IH]; intros w Hl Hex; simpl.
    + destruct (messageQueue w); [by inversion Hex|done].
    + destruct (messageQueue w) as [|c rest] eqn:Hq; [by inversion Hex|].
      destruct (truthy_string c) eqn:Hc.
      * rewrite send_dead by done. apply IH; [done|]. simpl.
        apply Exists_app. right. by constructor.
      * apply IH; [done|]. simpl.
        inversion Hex as [? ? Hc'|? ? Hrest]; subst; [congruence|done].
  - assert (forall n w0, live w0 = None ->
              Forall (fun c => truthy_string c = false) (messageQueue w0) ->
              length (messageQueue w0) < n ->
              flushQueue n w0 = Some (with_queue [] w0)) as Hgen.
    { induction n as [|n IH]; intros w0 Hl0 Hall Hn; [lia|]. simpl.
      destruct (messageQueue w0) as [|c rest] eqn:Hq.
      - f_equal. destruct w0. simpl in *. by subst.
      - inversion Hall as [|? ? Hc Hrest]; subst. rewrite Hc.
        rewrite IH; [done|done|done|simpl in *; lia]. }
    intros Hall. apply Hgen; [done|done|lia].
Qed.

(** X9.  Inbound data never touches the connection: a 'data' event leaves
    the state, [this.socket], the queue, the sockets and the session id as
    they were, and changes nothing at all when no response handler is
    registered, whatever the chunk. *)
Theorem inbound_data_frame k chunk w w' :
  step JSON_parse (SocketData k chunk) w = Some w' ->
  state w' = state w /\ socket w' = socket w /\
  messageQueue w' = messageQueue w /\ attempts w' = attempts w /\
  sessionId w' = sessionId w /\
  (onResponse (options w) = None -> w' = w).
Proof.
  simpl. destruct (attempts w !! k) as [a|]; [|done].
  destruct (established a && negb (destroyed a)); [|done].
  intros [= <-]. destruct (handleData_after JSON_parse chunk w) as [h Hh].
  rewrite Hh. repeat (split; [done|]).
  intros Hno. rewrite <- Hh. unfold handleData, deliver. rewrite Hno.
  destruct (ignored chunk); [done|].
  destruct (JSON_parse chunk); simpl; by destruct w.
Qed.

End More.

Lemma reachable_queued : reachable Scenario.unparsed ScenarioMore.queued.
Proof.
  apply (reach_step _ (Send "1+1") Scenario.client); [apply reach_create|done].
Qed.

(** X1 on the client whose first handle is connecting. *)
Lemma at_most_one_live_handle_witness :
  reachable Scenario.unparsed Scenario.pending /\
  attempts Scenario.pending !! 0 = Some fresh /\
  socket Scenario.pending = Some 0 /\
  live Scenario.pending = Some 0.
Proof.
  split; [apply reachable_pending|]. split; [reflexivity|].
  destruct (at_most_one_live_handle Scenario.unparsed Scenario.pending 0 fresh
              reachable_pending eq_refl eq_refl) as (Hs & Hl & _).
  split; [exact Hs|exact Hl].
Defined.

(** X2 on a client that connects, disconnects and connects again. *)
Lemma session_id_fixed_at_construction_witness :
  exists w',
    run Scenario.unparsed [Connect; SocketConnect 0; Disconnect; Connect]
      (create Scenario.observed 1700000000000 []) = Some w' /\
    sessionId w' = Scenario.id.
Proof.
  eexists. split; [reflexivity|].
  apply (session_id_fixed_at_construction Scenario.unparsed Scenario.observed
           1700000000000%N []
           [Connect; SocketConnect 0; Disconnect; Connect]).
  reflexivity.
Defined.

(** X3 on [disconnect] with a payload queued. *)
Lemma queue_changes_witness :
  reachable Scenario.unparsed ScenarioMore.queued /\
  messageQueue ScenarioMore.queued = ["1+1"] /\
  messageQueue (disconnect ScenarioMore.queued) = ["1+1"].
Proof.
  split; [apply reachable_queued|]. split; [reflexivity|].
  apply (queue_changes Scenario.unparsed Disconnect ScenarioMore.queued
           (disconnect ScenarioMore.queued) reachable_queued eq_refl).
Defined.

(** X4 on the established first handle. *)
Lemma established_has_handshake_witness :
  reachable Scenario.unparsed Scenario.online /\
  established <$> attempts Scenario.online !! 0 = Some true /\
  In (handshake Scenario.id) [handshake Scenario.id].
Proof.
  split; [apply reachable_online|]. split; [reflexivity|].
  apply (established_has_handshake Scenario.unparsed Scenario.online 0
           (opened Scenario.id [] fresh) reachable_online eq_refl eq_refl).
Defined.

(** X10 on the first handle of a new client: nothing was written while it
    was connecting, and the handshake line comes first. *)
Lemma handshake_on_connect_witness :
  reachable Scenario.unparsed Scenario.pending /\
  attempts Scenario.pending !! 0 = Some fresh /\
  step Scenario.unparsed (SocketConnect 0) Scenario.pending
  = Some Scenario.online /\
  written <$> attempts Scenario.online !! 0 = Some [handshake Scenario.id].
Proof.
  split; [apply reachable_pending|]. split; [reflexivity|].
  split; [reflexivity|].
  destruct (handshake_on_connect Scenario.unparsed Scenario.pending 0 fresh
              Scenario.online reachable_pending eq_refl eq_refl) as [_ Hw].
  exact Hw.
Defined.

(** X5 on the call given up: whatever comes later, here a second connection
    and a send, its promise stays open. *)
Lemma abandoned_never_resolved_witness :
  attempts ScenarioMore.hung !! 0 = Some ScenarioMore.hung_attempt /\
  abandoned ScenarioMore.hung_attempt /\
  exists w',
    run Scenario.unparsed [Connect; SocketConnect 1; Send "1+1"]
      ScenarioMore.hung = Some w' /\
    settled <$> attempts w' !! 0 = Some None.
Proof.
  split; [reflexivity|].
  assert (abandoned ScenarioMore.hung_attempt) as Ha by (repeat split).
  split; [exact Ha|].
  eexists. split; [reflexivity|].
  apply (abandoned_never_resolved Scenario.unparsed
           [Connect; SocketConnect 1; Send "1+1"] ScenarioMore.hung _ 0
           ScenarioMore.hung_attempt eq_refl Ha).
  reflexivity.
Defined.

(** X6 on the established first handle. *)
Lemma connection_lost_witness :
  reachable Scenario.unparsed Scenario.online /\
  exists w', run Scenario.unparsed (lost 0) Scenario.online = Some w' /\
    state w' = disconnected /\
    isConnected w' = false /\
    outside w' = [connecting; connected; error; disconnected].
Proof.
  split; [apply reachable_online|].
  destruct (connection_lost Scenario.unparsed Scenario.online 0
              (opened Scenario.id [] fresh) reachable_online eq_refl eq_refl)
    as (w' & Hrun & Hst & _ & Hc & _ & _ & _ & Hout).
  exists w'. split; [exact Hrun|]. split; [exact Hst|]. split; [exact Hc|].
  apply (Hout (fun s told => told ++ [s])). reflexivity.
Defined.

(** X7 on the established first handle. *)
Lemma disconnect_closes_everything_witness :
  reachable Scenario.unparsed Scenario.online /\
  state (disconnect Scenario.online) = disconnected /\
  socket (disconnect Scenario.online) = None /\
  isConnected (disconnect Scenario.online) = false.
Proof.
  split; [apply reachable_online|].
  destruct (disconnect_closes_everything Scenario.unparsed Scenario.online
              reachable_online) as (Hst & Hs & Hc & _).
  split; [exact Hst|]. split; [exact Hs|exact Hc].
Defined.

(** X8 on the new client with one payload queued. *)
Lemma flushQueue_without_handle_witness :
  live ScenarioMore.queued = None /\
  Exists (fun c => truthy_string c = true) (messageQueue ScenarioMore.queued) /\
  flushQueue 1000 ScenarioMore.queued = None.
Proof.
  split; [reflexivity|].
  assert (Exists (fun c => truthy_string c = true)
            (messageQueue ScenarioMore.queued)) as Hex.
  { left. reflexivity. }
  split; [exact Hex|].
  destruct (flushQueue_without_handle ScenarioMore.queued eq_refl) as [Hloop _].
  exact (Hloop Hex 1000).
Defined.

(** X9 on a chunk arriving on the established first handle. *)
Lemma inbound_data_frame_witness :
  step Scenario.unparsed (SocketData 0 "ok") Scenario.online
  = Some Scenario.online.
Proof.
  destruct (inbound_data_frame Scenario.unparsed 0 "ok" Scenario.online
              (after (handleData Scenario.unparsed "ok" Scenario.online))
              eq_refl) as (_ & _ & _ & _ & _ & Hsame).
  exact (f_equal Some (Hsame eq_refl)).
Defined.

End ClientMore.

(** *** Further properties of the launcher *)
Module ServerMore.
Import JS LilaServer ServerFacts.

Lemma lookup_on_terminal k f s j :
  terminals (on_terminal k f s) !! j
  = if decide (k = j) then f <$> terminals s !! j else terminals s !! j.
Proof.
  unfold on_terminal. simpl. rewrite list_lookup_alter.
  by destruct (decide (k = j)) as [->|].
Qed.

(** [stop] when no process is held. *)
Lemma stop_without_process s :
  process s = None ->
  stop s =
  mkServer (serverPath s) None stopped None
    (match terminal s with
     | Some k => alter dispose k (terminals s)
     | None => terminals s
     end)
    (killed s) (messages s) (assigned s ++ [stopped]).
Proof.
  intros Hp. unfold stop, setState, on_terminal.
  destruct (terminal s) eqn:Ht; simpl; rewrite ?Hp; simpl;
    rewrite ?Hp, ?Ht; reflexivity.
Qed.

(** X11.  At rest the launcher is never in state "starting"; a held
    terminal is the newest one and is not disposed; while the state is
    "running" a terminal is held and has been shown; in state "stopped" no
    terminal is held; and every terminal was created under the name "Lila
    Server" with the configured server path as its shell. *)
Theorem launcher_invariant s :
  reachable s ->
  (state s = stopped \/ state s = running \/ state s = error) /\
  (forall k, terminal s = Some k ->
     S k = length (terminals s) /\
     exists t, terminals s !! k = Some t /\ disposed t = false) /\
  (state s = running ->
     exists k t, terminal s = Some k /\ terminals s !! k = Some t /\
                 1 <= shows t) /\
  (state s = stopped -> terminal s = None) /\
  (forall j t, terminals s !! j = Some t ->
     name t = "Lila Server" /\ shellPath t = serverPath s).
Proof.
  induction 1 as [path|op s Hr (Hst & Hheld & Hrun & Hstop & Hall)].
  { repeat split; try done. by left. }
  destruct (reachable_process s Hr) as [Hp _].
  assert (forall t0, (terminals s ++ [t0]) !! length (terminals s) = Some t0)
    as Hnew.
  { intros t0. by rewrite list_lookup_middle. }
  destruct op as [l| |]; cbn [step].
  - rewrite (start_without_process l s Hp). destruct l; simpl.
    + split; [by right; left|]. split.
      { intros k [= <-]. rewrite length_app. simpl. split; [lia|].
        rewrite Hnew. by eexists. }
      split.
      { intros _. eexists _, _. split; [done|]. split; [apply Hnew|]. simpl. lia. }
      split; [done|].
      intros j t Hj. apply lookup_app_Some in Hj as [Hj|[_ Hj]]; [by apply (Hall j)|].
      by apply list_lookup_singleton_Some in Hj as [_ <-].
    + split; [by right; right|]. split; [done|]. split; [done|]. by split.
    + split; [by right; right|]. split.
      { intros k [= <-]. rewrite length_app. simpl. split; [lia|].
        rewrite Hnew. by eexists. }
      split; [done|]. split; [done|].
      intros j t Hj. apply lookup_app_Some in Hj as [Hj|[_ Hj]]; [by apply (Hall j)|].
      by apply list_lookup_singleton_Some in Hj as [_ <-].
  - rewrite (stop_without_process s Hp). simpl.
    split; [by left|]. split; [done|]. split; [done|]. split; [done|].
    intros j t. destruct (terminal s) as [k|]; [|apply Hall].
    rewrite list_lookup_alter. destruct (decide (k = j)) as [->|]; [|apply Hall].
    destruct (terminals s !! j) as [t0|] eqn:Hj; [|done].
    simpl. intros [= <-]. exact (Hall j t0 Hj).
  - unfold showTerminal. destruct (terminal s) as [k|] eqn:Hk;
      [|rewrite Hk; exact (conj Hst (conj Hheld (conj Hrun (conj Hstop Hall))))].
    destruct (Hheld k eq_refl) as (Hlen & t & Ht & Hd).
    unfold on_terminal. simpl. rewrite Hk.
    split; [done|]. split.
    { intros k' [= <-]. rewrite length_alter. split; [done|].
      rewrite list_lookup_alter_eq, Ht. simpl. by eexists. }
    split.
    { intros Hs. destruct (Hrun Hs) as (k' & t' & Hk' & Ht' & Hsh).
      assert (k' = k) as -> by congruence.
      assert (t' = t) as -> by congruence.
      exists k, (show t). split; [done|]. split.
      - by rewrite list_lookup_alter_eq, Ht.
      - simpl. lia. }
    split; [intros Hs; by specialize (Hstop Hs)|].
    intros j t0. rewrite list_lookup_alter.
    destruct (decide (k = j)) as [->|]; [|apply Hall].
    rewrite Ht. simpl. intros [= <-]. exact (Hall j t Ht).
Qed.

(** X11 on a launcher that was started. *)
Lemma launcher_invariant_witness :
  reachable (run [Start Launched] (create "lila_server")) /\
  state (run [Start Launched] (create "lila_server")) = running /\
  exists k t,
    terminal (run [Start Launched] (create "lila_server")) = Some k /\
    terminals (run [Start Launched] (create "lila_server")) !! k = Some t /\
    1 <= shows t.
Proof.
  assert (reachable (run [Start Launched] (create "lila_server"))) as Hr.
  { apply (reach_step (Start Launched)). apply reach_create. }
  split; [exact Hr|]. split; [reflexivity|].
  destruct (launcher_invariant _ Hr) as (_ & _ & Hrun & _).
  exact (Hrun eq_refl).
Defined.

(** X12.  [stop] always ends in state "stopped" holding no terminal; the
    terminal held before it is disposed, every other terminal is left as it
    is, no message is shown; and a second [stop] touches no terminal. *)
Theorem stop_releases s :
  state (stop s) = stopped /\
  isRunning (stop s) = false /\
  terminal (stop s) = None /\
  process (stop s) = None /\
  messages (stop s) = messages s /\
  (forall k, terminal s = Some k ->
     terminals (stop s) !! k = dispose <$> terminals s !! k) /\
  (forall j, terminal s <> Some j ->
     terminals (stop s) !! j = terminals s !! j) /\
  terminals (stop (stop s)) = terminals (stop s).
Proof.
  assert (forall s0, terminal (stop s0) = None) as Hnone.
  { intros s0. unfold stop, on_terminal.
    destruct (terminal s0) eqn:Ht; simpl; destruct (process s0); simpl;
      rewrite ?Ht; done. }
  assert (forall s0, terminals (stop s0)
            = match terminal s0 with
              | Some k => alter dispose k (terminals s0)
              | None => terminals s0
              end) as Hterm.
  { intros s0. unfold stop, on_terminal.
    destruct (terminal s0) eqn:Ht; simpl; destruct (process s0); simpl;
      rewrite ?Ht; done. }
  split; [done|]. split; [done|]. split; [done|]. split.
  { unfold stop, on_terminal.
    destruct (terminal s) eqn:Ht; simpl; destruct (process s) eqn:Hp;
      simpl; rewrite ?Hp; done. }
  split.
  { unfold stop, on_terminal.
    destruct (terminal s) eqn:Ht; simpl; destruct (process s) eqn:Hp;
      simpl; rewrite ?Hp; done. }
  split.
  { intros k Hk. rewrite Hterm, Hk. apply list_lookup_alter_eq. }
  split.
  { intros j Hj. rewrite Hterm. destruct (terminal s) as [k|]; [|done].
    apply list_lookup_alter_ne. congruence. }
  by rewrite (Hterm (stop s)), Hnone.
Qed.

(** X12 on a launcher that was started. *)
Lemma stop_releases_witness :
  terminal (run [Start Launched] (create "lila_server")) = Some 0 /\
  terminals (stop (run [Start Launched] (create "lila_server"))) !! 0
  = Some (mkTerminal "Lila Server" "lila_server" 1 true).
Proof.
  split; [reflexivity|].
  destruct (stop_releases (run [Start Launched] (create "lila_server")))
    as (_ & _ & _ & _ & _ & Hheld & _).
  exact (Hheld 0 eq_refl).
Defined.

(** A terminal that is not the held one is out of reach of one operation. *)
Lemma orphan_step op s j t :
  terminals s !! j = Some t -> terminal s <> Some j ->
  terminals (step op s) !! j = Some t /\ terminal (step op s) <> Some j.
Proof.
  intros Hj Hne. pose proof (lookup_lt_Some _ _ _ Hj) as Hlt.
  assert (forall t0, (terminals s ++ [t0]) !! j = Some t) as Hold.
  { intros t0. by apply lookup_app_l_Some. }
  assert (Some (length (terminals s)) <> Some j) as Hfresh.
  { intros [= <-]. lia. }
  destruct op as [l| |]; cbn [step].
  - unfold start. destruct (process s); [done|].
    destruct l; simpl.
    + rewrite list_lookup_alter_ne by lia. by rewrite Hold.
    + done.
    + by rewrite Hold.
  - destruct (stop_releases s) as (_ & _ & Hnone & _ & _ & _ & Hother & _).
    rewrite Hnone, (Hother j Hne). by split.
  - unfold showTerminal. destruct (terminal s) as [k|] eqn:Hk;
      [|split; [done|by rewrite Hk]].
    unfold on_terminal. simpl.
    rewrite list_lookup_alter_ne by congruence. split; congruence.
Qed.

(** X13.  A terminal the launcher no longer holds, as the first one after
    a second [start], is out of its reach for good: whatever is called
    afterwards, that terminal is neither shown nor disposed and is never
    held again. *)
Theorem orphan_terminal_untouched ops s j t :
  terminals s !! j = Some t -> terminal s <> Some j ->
  terminals (run ops s) !! j = Some t /\ terminal (run ops s) <> Some j.
Proof.
  revert s. induction ops as [|op ops IH]; intros s Hj Hne; [done|].
  destruct (orphan_step op s j t Hj Hne) as [Hj' Hne'].
  by apply (IH (step op s)).
Qed.

(** X13 on the first terminal of a launcher started twice: stopping and
    starting again leave it open. *)
Lemma orphan_terminal_untouched_witness :
  terminals ScenarioMore.twice !! 0
  = Some (mkTerminal "Lila Server" "lila_server" 1 false) /\
  terminal ScenarioMore.twice = Some 1 /\
  terminals (run [Stop; Start Launched; Stop] ScenarioMore.twice) !! 0
  = Some (mkTerminal "Lila Server" "lila_server" 1 false).
Proof.
  split; [reflexivity|]. split; [reflexivity|].
  assert (terminal ScenarioMore.twice <> Some 0) as Hne by discriminate.
  destruct (orphan_terminal_untouched [Stop; Start Launched; Stop]
              ScenarioMore.twice 0
              (mkTerminal "Lila Server" "lila_server" 1 false) eq_refl Hne)
    as [Hsame _].
  exact Hsame.
Defined.

End ServerMore.

(** *** The session: what is shown, and [sendCode] *)
Module SessionMore.
Import JS LilaClient LilaSession LilaSessionCalls ClientFacts SessionFacts.

Lemma with_outside_same {H} (w : World H) : with_outside (outside w) w = w.
Proof. by destruct w. Qed.

Lemma status_not_both v :
  is_string v "success" = true -> is_string v "error" = false.
Proof.
  destruct v as [[| | |s| |]|]; simpl; try done.
  intros Hs. apply String.eqb_eq in Hs. by subst.
Qed.

Section Shown.
Variable JSON_parse : string -> option JSON.

(** X14.  With the session's handler registered, no exception leaves the
    'data' listener and nothing shown earlier is lost: a chunk that is
    ignored shows nothing, and every other chunk appends exactly one line
    to the output channel, whether it parses, parses to [null] or does not
    parse, or carries a message the handler fails to convert.  An error
    dialog is raised exactly when the chunk parses to a document whose
    [status] is "error" and whose message converts to a string. *)
Theorem chunk_shown_once (w : World (list Ui)) (data : string) :
  onResponse (options w) = Some handleResponse ->
  exists shown,
    handleData JSON_parse data w = Done (with_outside (outside w ++ shown) w) /\
    length (List.filter is_line shown) = (if ignored data then 0 else 1) /\
    length (List.filter is_dialog shown)
    = (if ignored data then 0
       else match JSON_parse data with
            | Some v =>
                if is_string (field v "status") "error"
                   && negb (throws (field v "message"))
                then 1 else 0
            | None => 0
            end).
Proof.
  intros Hf. unfold handleData, deliver. rewrite Hf.
  destruct (ignored data).
  { exists []. by rewrite app_nil_r, with_outside_same. }
  destruct (JSON_parse data) as [v|].
  - assert (v = JNull \/ v <> JNull) as [->|Hv]
      by (destruct v; (by left) || (by right)).
    + by exists (display (Raw data)).
    + destruct (unprintable v) eqn:Hu.
      * rewrite (handleResponse_unprintable v _ Hv Hu), handleResponse_raw.
        exists (display (Raw data)). split; [done|]. split; [done|].
        unfold unprintable in Hu. apply andb_true_iff in Hu as [_ ->].
        by rewrite andb_false_r.
      * rewrite (handleResponse_display v _ Hv Hu). eexists. split; [done|].
        unfold unprintable in Hu.
        destruct (is_string (field v "status") "success") eqn:Hs.
        { by rewrite (status_not_both _ Hs). }
        destruct (is_string (field v "status") "error"); simpl in Hu.
        { by rewrite Hu. }
        by destruct (truthy (field v "result")).
  - exists (display (Raw data)). by rewrite handleResponse_raw.
Qed.

End Shown.

Section Calls.
Variable JSON_parse : string -> option JSON.
Implicit Types w : World (list Ui).

Lemma transmit_send code logInput w :
  transmit code logInput w
  = send code (with_outside (outside w ++ logged code logInput) w).
Proof.
  unfold transmit, logged.
  destruct logInput as [[]|]; try done.
  by rewrite app_nil_r, with_outside_same.
Qed.

Lemma transmit_live code logInput w k :
  live w = Some k ->
  transmit code logInput w
  = on_attempt k (write (line code))
      (with_outside (outside w ++ logged code logInput) w).
Proof. intros Hl. rewrite transmit_send. by apply send_live. Qed.

Lemma inv_transmit code logInput w : inv w -> inv (transmit code logInput w).
Proof.
  intros Hi. rewrite transmit_send. by apply inv_send, inv_with_outside.
Qed.

(** X15.  [sendCode] on a connected client returns without asking: the
    payload is written as one line to the live handle, after what was
    written before, nothing is queued, and the output channel gets the
    [>>>] line unless [logInput] is [false]. *)
Theorem sendCode_when_connected w code logInput :
  inv w -> isConnected w = true ->
  exists k w',
    live w = Some k /\
    sendCode code logInput w = (Finished, w') /\
    attempts w' = alter (write (line code)) k (attempts w) /\
    messageQueue w' = [] /\
    state w' = state w /\
    outside w' = outside w ++ logged code logInput.
Proof.
  intros Hi Hc. pose proof (inv_queue w Hi Hc) as Hq.
  pose proof Hc as Hc'. apply isConnected_true in Hc' as [_ [k Hl]].
  exists k. eexists. split; [done|].
  unfold sendCode. rewrite Hc, (transmit_live _ _ _ _ Hl).
  split; [done|]. by autorewrite with fields.
Qed.

(** X16.  [sendCode] loses the payload when no connection is made.  On a
    client without a live handle, any answer to the warning other than
    "Connect" ends the call with nothing changed.  On the answer "Connect"
    with a port outside 0..65535, [connect] is rejected and the call ends
    with that exception: the state is left [connecting], no attempt is
    made and no dialog is shown.  With a port in that range an attempt is
    started, and when it fails with an error the call shows the failure
    dialog and ends.  In no case is the payload written or put in the
    queue. *)
Theorem code_dropped_when_connect_fails w code logInput :
  inv w -> live w = None ->
  (forall answer, answer <> Some "Connect" ->
     answered answer code logInput w = (Finished, w)) /\
  (valid_port (port (options w)) = false ->
   answered (Some "Connect") code logInput w
   = (Failed, setState connecting w)) /\
  (valid_port (port (options w)) = true ->
   exists w1 w2 w3,
    answered (Some "Connect") code logInput w
    = (Connecting (length (attempts w)), w1) /\
    state w1 = connecting /\
    step JSON_parse (Teardown (length (attempts w)) true) w1 = Some w2 /\
    step JSON_parse (SocketError (length (attempts w))) w2 = Some w3 /\
    state w3 = error /\
    settled <$> attempts w3 !! length (attempts w) = Some (Some false) /\
    messageQueue (resumed false code logInput w3) = messageQueue w /\
    written <$> attempts (resumed false code logInput w3) !! length (attempts w)
    = Some [] /\
    outside (resumed false code logInput w3)
    = outside w3 ++ [failed_to_connect]).
Proof.
  intros Hi Hl. split.
  { intros [answer|] Ha; [|done]. unfold answered.
    destruct (String.eqb answer "Connect") eqn:E; [|done].
    apply String.eqb_eq in E. by subst. }
  split.
  { intros Hp. unfold answered. simpl String.eqb. cbv iota.
    by rewrite (connect_bad_port w Hl Hp). }
  intros Hp.
  set (k := length (attempts w)).
  unfold answered. simpl String.eqb. cbv iota. rewrite (connect_dead w Hl Hp).
  fold k.
  set (w1 := with_socket _ _).
  assert (attempts w1 !! k = Some fresh) as Hk.
  { subst w1. simpl. autorewrite with fields. by apply list_lookup_middle. }
  exists w1, (on_attempt k (teardown true) w1),
    (onError k (on_attempt k clear_error (on_attempt k (teardown true) w1))).
  split; [done|].
  split; [subst w1; simpl; by autorewrite with fields|].
  split; [cbn [step]; by rewrite Hk|].
  split.
  { cbn [step]. rewrite lookup_on_attempt, decide_True by done.
    by rewrite Hk. }
  unfold onError, resumed. simpl outside. simpl messageQueue.
  autorewrite with fields.
  split; [done|].
  rewrite !list_lookup_alter_eq, Hk. simpl.
  split; [done|]. split; [by autorewrite with fields|]. split; [|done].
  autorewrite with fields. by rewrite !list_lookup_alter_eq, Hk.
Qed.

(** X17.  [sendCode] while the handle is still connecting.  The client is
    not connected, so the call asks; on the answer "Connect", [connect]
    short-circuits on the live handle and the call ends at once, having
    written the payload to the half-open handle.  When the connect callback
    runs afterwards, the handshake line comes after the payload. *)
Theorem sendCode_while_connecting w k a code logInput :
  inv w -> state w = connecting ->
  attempts w !! k = Some a -> destroyed a = false -> established a = false ->
  sendCode code logInput w = (Asking, w) /\
  exists w1 w2,
    answered (Some "Connect") code logInput w = (Finished, w1) /\
    messageQueue w1 = messageQueue w /\
    outside w1 = outside w ++ logged code logInput /\
    attempts w1 !! k = Some (write (line code) a) /\
    step JSON_parse (SocketConnect k) w1 = Some w2 /\
    written <$> attempts w2 !! k
    = Some (written a ++ line code :: handshake (sessionId w)
              :: map line (List.filter truthy_string (messageQueue w))).
Proof.
  intros Hi Hst Hk D E. pose proof (inv_live w k a Hi Hk D) as Hl.
  split.
  { unfold sendCode, isConnected. by rewrite Hst. }
  unfold answered. simpl String.eqb. cbv iota.
  unfold connect. rewrite Hl. unfold resumed.
  pose proof (inv_transmit code logInput w Hi) as Hi1.
  rewrite (transmit_live _ _ _ _ Hl) in Hi1 |- *.
  set (w1 := on_attempt k _ _) in *.
  assert (attempts w1 !! k = Some (write (line code) a)) as Hk1.
  { subst w1. autorewrite with fields. simpl.
    by rewrite list_lookup_alter_eq, Hk. }
  exists w1. eexists. split; [done|].
  split; [subst w1; by autorewrite with fields|].
  split; [subst w1; by autorewrite with fields|].
  split; [done|].
  split; [by apply (step_SocketConnect JSON_parse w1 k _ Hi1 Hk1)|].
  simpl attempts. autorewrite with fields.
  rewrite list_lookup_alter_eq, Hk1.
  subst w1. autorewrite with fields. simpl.
  by rewrite <- app_assoc.
Qed.

(** X18.  [sendCode] on a client without a live handle and with a port in
    0..65535, answered with "Connect", when the attempt succeeds: the
    connect callback resolves the promise with [true], and the call then
    writes the payload on the new handle after the handshake line and
    after the queued payloads, leaving the queue empty. *)
Theorem sendCode_connects_then_sends w code logInput :
  inv w -> live w = None -> valid_port (port (options w)) = true ->
  sendCode code logInput w = (Asking, w) /\
  exists w1 w2,
    answered (Some "Connect") code logInput w
    = (Connecting (length (attempts w)), w1) /\
    step JSON_parse (SocketConnect (length (attempts w))) w1 = Some w2 /\
    settled <$> attempts w2 !! length (attempts w) = Some (Some true) /\
    messageQueue (resumed true code logInput w2) = [] /\
    written <$> attempts (resumed true code logInput w2) !! length (attempts w)
    = Some (handshake (sessionId w)
              :: map line (List.filter truthy_string (messageQueue w))
              ++ [line code]) /\
    outside (resumed true code logInput w2)
    = outside w2 ++ logged code logInput.
Proof.
  intros Hi Hl Hp. split.
  { unfold sendCode, isConnected. rewrite Hl. by rewrite andb_false_r. }
  set (k := length (attempts w)).
  unfold answered. simpl String.eqb. cbv iota. rewrite (connect_dead w Hl Hp).
  fold k.
  pose proof (inv_connect w Hi) as Hi1. rewrite (connect_dead w Hl Hp) in Hi1.
  simpl fst in Hi1. fold k in Hi1.
  set (w1 := with_socket _ _) in *.
  assert (attempts w1 !! k = Some fresh) as Hk.
  { subst w1. simpl. autorewrite with fields. by apply list_lookup_middle. }
  exists w1. eexists. split; [done|].
  split; [by apply (step_SocketConnect JSON_parse w1 k fresh Hi1 Hk)|].
  set (w2 := with_queue [] _).
  assert (attempts w2 !! k
          = Some (opened (sessionId w) (messageQueue w) fresh)) as Hk2.
  { subst w2. simpl. autorewrite with fields.
    rewrite list_lookup_alter_eq, Hk. subst w1. simpl.
    by autorewrite with fields. }
  assert (live w2 = Some k) as Hl2.
  { apply live_Some. split; [subst w2 w1; simpl; by autorewrite with fields|].
    eexists. split; [exact Hk2|done]. }
  split; [by rewrite Hk2|].
  unfold resumed. rewrite (transmit_live _ _ _ _ Hl2).
  autorewrite with fields. split; [done|].
  split; [|done].
  change (attempts (with_outside (outside w2 ++ logged code logInput) w2))
    with (attempts w2).
  by rewrite list_lookup_alter_eq, Hk2.
Qed.

End Calls.

Lemma inv_session : inv Scenario.session.
Proof. apply inv_create. Qed.

Lemma reachable_session_pending :
  reachable Scenario.parse ScenarioSession.pending.
Proof.
  apply (reach_step _ Connect Scenario.session); [apply reach_create|done].
Qed.

Lemma reachable_session_online :
  reachable Scenario.parse ScenarioSession.online.
Proof.
  apply (reach_step _ (SocketConnect 0) ScenarioSession.pending);
    [apply reachable_session_pending|done].
Qed.

Lemma inv_session_pending : inv ScenarioSession.pending.
Proof. apply (reachable_inv Scenario.parse), reachable_session_pending. Qed.

Lemma inv_session_online : inv ScenarioSession.online.
Proof. apply (reachable_inv Scenario.parse), reachable_session_online. Qed.

(** X14 on an error document arriving at the client of a session: one
    line and one dialog. *)
Lemma chunk_shown_once_witness :
  onResponse (options Scenario.session) = Some handleResponse /\
  exists shown,
    handleData ScenarioSession.parse ScenarioSession.error_text
      Scenario.session
    = Done (with_outside (outside Scenario.session ++ shown)
              Scenario.session) /\
    length (List.filter is_line shown) = 1 /\
    length (List.filter is_dialog shown) = 1.
Proof.
  split; [reflexivity|].
  destruct (chunk_shown_once ScenarioSession.parse Scenario.session
              ScenarioSession.error_text eq_refl) as (shown & Hd & Hl & Hg).
  exists shown. split; [exact Hd|]. split; [exact Hl|exact Hg].
Defined.

(** X15 on the connected client of a session. *)
Lemma sendCode_when_connected_witness :
  inv ScenarioSession.online /\
  isConnected ScenarioSession.online = true /\
  exists k w',
    live ScenarioSession.online = Some k /\
    sendCode "1+1" None ScenarioSession.online = (Finished, w') /\
    attempts w'
    = alter (write (line "1+1")) k (attempts ScenarioSession.online) /\
    messageQueue w' = [] /\
    state w' = state ScenarioSession.online /\
    outside w' = outside ScenarioSession.online ++ logged "1+1" None.
Proof.
  split; [exact inv_session_online|]. split; [reflexivity|].
  apply (sendCode_when_connected ScenarioSession.online "1+1" None
           inv_session_online eq_refl).
Defined.

(** X16 on the new client of a session: the warning answered "Cancel", and
    answered "Connect" with the connection refused. *)
Lemma code_dropped_when_connect_fails_witness :
  inv Scenario.session /\
  live Scenario.session = None /\
  answered (Some "Cancel") "1+1" None Scenario.session
  = (Finished, Scenario.session) /\
  valid_port (port (options Scenario.session)) = true /\
  exists w1 w2 w3,
    answered (Some "Connect") "1+1" None Scenario.session
    = (Connecting 0, w1) /\
    step Scenario.parse (Teardown 0 true) w1 = Some w2 /\
    step Scenario.parse (SocketError 0) w2 = Some w3 /\
    messageQueue (resumed false "1+1" None w3) = [] /\
    written <$> attempts (resumed false "1+1" None w3) !! 0 = Some [] /\
    outside (resumed false "1+1" None w3) = outside w3 ++ [failed_to_connect].
Proof.
  split; [exact inv_session|]. split; [reflexivity|].
  destruct (code_dropped_when_connect_fails Scenario.parse Scenario.session
              "1+1" None inv_session eq_refl) as (Hother & _ & Hfails).
  split; [apply Hother; discriminate|]. split; [reflexivity|].
  destruct (Hfails eq_refl)
    as (w1 & w2 & w3 & Ha & _ & H2 & H3 & _ & _ & Hq & Hw & Ho).
  exists w1, w2, w3. repeat split; assumption.
Defined.

(** X17 on the client of a session whose first handle is connecting. *)
Lemma sendCode_while_connecting_witness :
  inv ScenarioSession.pending /\
  state ScenarioSession.pending = connecting /\
  attempts ScenarioSession.pending !! 0 = Some fresh /\
  sendCode "1+1" None ScenarioSession.pending
  = (Asking, ScenarioSession.pending) /\
  exists w1 w2,
    answered (Some "Connect") "1+1" None ScenarioSession.pending
    = (Finished, w1) /\
    step Scenario.parse (SocketConnect 0) w1 = Some w2 /\
    written <$> attempts w2 !! 0
    = Some [line "1+1"; handshake Scenario.id].
Proof.
  split; [exact inv_session_pending|]. split; [reflexivity|].
  split; [reflexivity|].
  destruct (sendCode_while_connecting Scenario.parse ScenarioSession.pending 0
              fresh "1+1" None inv_session_pending eq_refl eq_refl eq_refl
              eq_refl) as (Hask & w1 & w2 & Ha & _ & _ & _ & Hs & Hw).
  split; [exact Hask|].
  exists w1, w2. split; [exact Ha|]. split; [exact Hs|exact Hw].
Defined.

(** X18 on the new client of a session. *)
Lemma sendCode_connects_then_sends_witness :
  inv Scenario.session /\
  live Scenario.session = None /\
  valid_port (port (options Scenario.session)) = true /\
  exists w1 w2,
    answered (Some "Connect") "1+1" None Scenario.session
    = (Connecting 0, w1) /\
    step Scenario.parse (SocketConnect 0) w1 = Some w2 /\
    written <$> attempts (resumed true "1+1" None w2) !! 0
    = Some [handshake Scenario.id; line "1+1"].
Proof.
  split; [exact inv_session|]. split; [reflexivity|].
  split; [reflexivity|].
  destruct (sendCode_connects_then_sends Scenario.parse Scenario.session
              "1+1" None inv_session eq_refl eq_refl)
    as (_ & w1 & w2 & Ha & Hs & _ & _ & Hw & _).
  exists w1, w2. split; [exact Ha|]. split; [exact Hs|exact Hw].
Defined.

End SessionMore.

(** *** What an observer of the client can rely on *)
Module ObserverFacts.
Import JS LilaClient ClientFacts.

Section Observer.
Context {H : Type} (JSON_parse : string -> option JSON).
Variable Q : string -> H -> Prop.

(** A relation between the state and the data of the callbacks that the
    response handler keeps is kept by [handleData]. *)
Lemma handleData_kept s chunk (w : World H) :
  (forall g, onResponse (options w) = Some g ->
     forall v h, Q s h -> Q s (after (g v h))) ->
  Q s (outside w) ->
  Q s (outside (after (handleData JSON_parse chunk w))).
Proof.
  intros Hg HQ. unfold handleData.
  destruct (ignored chunk); [done|].
  unfold deliver.
  destruct (onResponse (options w)) as [g|]; [|by destruct (JSON_parse chunk)].
  specialize (Hg g eq_refl).
  assert (forall h, Q s h ->
            Q s (outside (after (match g (raw chunk) h with
                                 | Done h' => Done (with_outside h' w)
                                 | Thrown h' => Thrown (with_outside h' w)
                                 end)))) as Hraw.
  { intros h Hh. pose proof (Hg (raw chunk) h Hh) as H1.
    by destruct (g (raw chunk) h). }
  destruct (JSON_parse chunk) as [v|]; [|by apply Hraw].
  pose proof (Hg v (outside w) HQ) as H1.
  destruct (g v (outside w)) as [h|h]; [done|]. by apply Hraw.
Qed.

(** A relation that the state observer establishes whenever it is told a
    state, and that the response handler keeps, is kept by every
    transition of the client; the options never change. *)
Lemma observer_step op (w w' : World H) f :
  onStateChange (options w) = Some f ->
  (forall s s' h, Q s h -> Q s' (f s' h)) ->
  (forall g, onResponse (options w) = Some g ->
     forall v s h, Q s h -> Q s (after (g v h))) ->
  Q (state w) (outside w) ->
  step JSON_parse op w = Some w' ->
  Q (state w') (outside w') /\ options w' = options w.
Proof.
  intros Hf Hcb Hg HQ Hstep.
  assert (forall s w0, options w0 = options w -> outside w0 = outside w ->
            Q s (outside (setState s w0))) as Hout.
  { intros s w0 Ho Hh. rewrite setState_outside, Ho, Hf, Hh.
    by apply (Hcb (state w)). }
  destruct op as [| |c|k|k chunk|k|k|k|k err]; simpl in Hstep.
  - injection Hstep as <-. unfold connect.
    destruct (live w); [done|]. simpl.
    destruct (valid_port _); simpl;
      rewrite setState_state, setState_options;
      (split; [by apply Hout|done]).
  - injection Hstep as <-. unfold disconnect.
    rewrite setState_state, setState_options.
    split; [apply Hout|]; unfold destroySocket; by destruct (socket w).
  - injection Hstep as <-.
    by destruct (send_face c w) as (-> & -> & -> & _).
  - destruct (attempts w !! k) as [a|]; [|done].
    destruct (destroyed a || established a); [done|].
    unfold onConnect in Hstep.
    set (w1 := setupSession _) in Hstep.
    destruct (flushQueue _ w1) as [w3|] eqn:Hfl; [|done].
    injection Hstep as <-. autorewrite with fields.
    apply flushQueue_face in Hfl as (-> & -> & -> & _). unfold w1.
    destruct (setupSession_face (setState connected
                (on_attempt k set_established w))) as (-> & -> & -> & _).
    rewrite setState_state, setState_options. split; [by apply Hout|done].
  - destruct (attempts w !! k) as [a|]; [|done].
    destruct (established a && negb (destroyed a)); [|done].
    injection Hstep as <-.
    pose proof (handleData_kept (state w) chunk w
                  (fun g Hg' v h => Hg g Hg' v (state w) h) HQ) as HQ'.
    by destruct (handleData_after JSON_parse chunk w) as [h Hh];
      rewrite Hh in HQ' |- *.
  - destruct (attempts w !! k) as [a|]; [|done].
    destruct (errorPending a); [|done]. injection Hstep as <-.
    unfold onError. autorewrite with fields. split; [by apply Hout|done].
  - destruct (attempts w !! k) as [a|]; [|done].
    destruct (closePending a && negb (errorPending a)); [|done].
    injection Hstep as <-. unfold onClose.
    autorewrite with fields. split; [by apply Hout|done].
  - destruct (attempts w !! k) as [a|]; [|done].
    destruct (timer a); [|done]. injection Hstep as <-.
    unfold onTimeout. autorewrite with fields.
    destruct (String.eqb (state w) connecting); [|done].
    autorewrite with fields.
    split; [apply Hout|]; unfold destroySocket; by destruct (socket _).
  - destruct (attempts w !! k) as [a|]; [|done].
    destruct (destroyed a); [done|]. by injection Hstep as <-.
Qed.

End Observer.
End ObserverFacts.

(** *** The session: status bar and launcher *)
Module BarFacts.
Import JS LilaClient ClientFacts ObserverFacts LilaSessionBar.

Lemma synced_paint s e : synced s (paint s e).
Proof. done. Qed.

Lemma paint_server s e : server (paint s e) = server e.
Proof. done. Qed.

Lemma respond_after v e :
  exists l, after (respond v e) = with_channel l e.
Proof.
  unfold respond.
  destruct (LilaSession.handleResponse v (channel e)) as [l|l]; by exists l.
Qed.

Lemma updateStatusBar_in_sync w : in_sync (updateStatusBar w).
Proof. done. Qed.

Lemma kept_paint s e s' :
  kept s e -> kept s' (paint s' e).
Proof. by intros [_ Hp]. Qed.

Lemma disconnect_options {H} (w : World H) : options (disconnect w) = options w.
Proof.
  unfold disconnect. rewrite setState_options.
  unfold destroySocket. by destruct (socket w).
Qed.

Lemma disconnect_outside (w : World Editor) :
  wired w -> outside (disconnect w) = paint disconnected (outside w).
Proof.
  intros [_ Hf]. unfold disconnect. rewrite setState_outside.
  assert (options (match socket w with
                   | Some _ => with_socket None (destroySocket w)
                   | None => w
                   end) = options w) as ->
    by (unfold destroySocket; by destruct (socket w)).
  rewrite Hf. unfold destroySocket. by destruct (socket w).
Qed.

Lemma disconnect_state {H} (w : World H) : state (disconnect w) = disconnected.
Proof. unfold disconnect. apply setState_state. Qed.

Lemma disconnect_live {H} (w : World H) : live (disconnect w) = None.
Proof.
  unfold disconnect. rewrite live_setState.
  destruct (socket w) eqn:E; [done|]. unfold live. by rewrite E.
Qed.

Section Session.
Variable JSON_parse : string -> option JSON.

Lemma kept_respond v s e : kept s e -> kept s (after (respond v e)).
Proof. intros Hk. by destruct (respond_after v e) as [l ->]. Qed.

Lemma wired_updateStatusBar w : wired w -> wired (updateStatusBar w).
Proof. done. Qed.

Lemma wired_on_server f w : wired w -> wired (on_server f w).
Proof. done. Qed.

Lemma wired_disconnect w : wired w -> wired (disconnect w).
Proof. unfold wired. by rewrite disconnect_options. Qed.

Lemma process_start l s :
  LilaServer.process s = None ->
  LilaServer.process (fst (LilaServer.start l s)) = None.
Proof.
  intros Hp. unfold LilaServer.start. rewrite Hp.
  by destruct l.
Qed.

Lemma process_stop s : LilaServer.process (LilaServer.stop s) = None.
Proof.
  unfold LilaServer.stop.
  destruct (LilaServer.terminal s); simpl;
    destruct (LilaServer.process s) eqn:E; simpl; done.
Qed.

Lemma terminal_stop s : LilaServer.terminal (LilaServer.stop s) = None.
Proof.
  unfold LilaServer.stop.
  destruct (LilaServer.terminal s) eqn:Et; simpl;
    destruct (LilaServer.process s) eqn:Ep; simpl; by rewrite ?Ep, ?Et.
Qed.

Lemma session_step op w w' :
  wired w -> kept (state w) (outside w) ->
  step JSON_parse op w = Some w' ->
  wired w' /\ kept (state w') (outside w').
Proof.
  intros Hw Hk Hstep. pose proof Hw as [Hg Hf].
  destruct op as [op|l ac| |l ac| |]; simpl in Hstep.
  - destruct (observer_step JSON_parse kept op w w' paint Hf) as [HQ Ho];
      try done.
    + intros s s' h. apply kept_paint.
    + intros g Hg' v s h. rewrite Hg in Hg'. injection Hg' as <-.
      apply kept_respond.
    + split; [|done]. unfold wired. by rewrite Ho.
  - injection Hstep as <-. split; [done|]. split; [done|].
    apply process_start, Hk.
  - injection Hstep as <-. split; [by apply wired_disconnect|].
    split; [done|]. apply process_stop.
  - injection Hstep as <-. split; [by apply wired_disconnect|].
    split; [done|]. apply process_start, process_stop.
  - injection Hstep as <-. split; [by apply wired_disconnect|].
    split; [done|]. simpl. rewrite (disconnect_outside w Hw). apply Hk.
  - injection Hstep as <-. split; [done|]. split; [done|]. apply Hk.
Qed.

Lemma reachable_kept w :
  reachable JSON_parse w -> wired w /\ kept (state w) (outside w).
Proof.
  induction 1 as [host port path now|op w w' _ [Hw Hk] Hstep]; [done|].
  by apply (session_step op w w').
Qed.

(** X19.  The status bar never lags behind.  In every world a session can
    get to, by the events of its client and by its commands, the text and
    the tooltip of the status bar item are the ones [updateStatusBar]
    computes from the current state of the client and of the launcher:
    "Connected" exactly when the client state is "connected", else
    "Server Running" exactly when the launcher state is "running", else
    "Disconnected". *)
Theorem status_bar_in_sync w : reachable JSON_parse w -> in_sync w.
Proof. intros Hr. by destruct (reachable_kept w Hr) as (_ & ? & _). Qed.

(** X20.  [stopServer] releases both halves and says so: the client ends
    disconnected without a live handle, its queue untouched; the launcher
    is stopped and holds no terminal; the status bar shows
    "Disconnected". *)
Theorem stopServer_releases w :
  reachable JSON_parse w ->
  state (stopServer w) = disconnected /\
  live (stopServer w) = None /\
  messageQueue (stopServer w) = messageQueue w /\
  server (outside (stopServer w)) = LilaServer.stop (server (outside w)) /\
  LilaServer.state (server (outside (stopServer w))) = LilaServer.stopped /\
  LilaServer.terminal (server (outside (stopServer w))) = None /\
  text (outside (stopServer w)) = "$(circle-slash) Lila" /\
  tooltip (outside (stopServer w)) = Some "Lila: Disconnected".
Proof.
  intros Hr. destruct (reachable_kept w Hr) as (Hw & _).
  assert (server (outside (stopServer w))
          = LilaServer.stop (server (outside w))) as Hs.
  { unfold stopServer. simpl. by rewrite (disconnect_outside w Hw). }
  assert (LilaServer.state (LilaServer.stop (server (outside w)))
          = LilaServer.stopped) as Hst by done.
  split; [apply disconnect_state|]. split; [apply disconnect_live|].
  split.
  { unfold stopServer, disconnect. simpl. rewrite setState_queue.
    unfold destroySocket. by destruct (socket w). }
  split; [done|]. rewrite Hs. split; [done|].
  split.
  { apply terminal_stop. }
  unfold stopServer. simpl. by rewrite disconnect_state.
Qed.

Lemma start_result l s :
  LilaServer.process s = None ->
  snd (LilaServer.start l s)
  = match l with LilaServer.Launched => true | _ => false end /\
  LilaServer.state (fst (LilaServer.start l s))
  = match l with
    | LilaServer.Launched => LilaServer.running
    | _ => LilaServer.error
    end.
Proof. intros Hp. unfold LilaServer.start. rewrite Hp. by destruct l. Qed.

(** X21.  [restartServer] always leaves the client disconnected; it
    returns [true] exactly when the terminal is created and shown, and
    only then arms the timer of the automatic connection, and that if
    [autoConnect] is set; the status bar then shows "Server Running", and
    "Disconnected" when the launch fails. *)
Theorem restartServer_bar w l autoConnect :
  reachable JSON_parse w ->
  exists w',
    restartServer l autoConnect w
    = (w',
       match l with LilaServer.Launched => true | _ => false end,
       match l with LilaServer.Launched => autoConnect | _ => false end) /\
    state w' = disconnected /\
    live w' = None /\
    server (outside w')
    = fst (LilaServer.start l (LilaServer.stop (server (outside w)))) /\
    tooltip (outside w')
    = Some (match l with
            | LilaServer.Launched => "Lila: Server Running"
            | _ => "Lila: Disconnected"
            end).
Proof.
  intros Hr. destruct (reachable_kept w Hr) as (Hw & _).
  destruct (start_result l (LilaServer.stop (server (outside w)))
              (process_stop _)) as [Hres Hst].
  eexists. split.
  { unfold restartServer, startServer. simpl.
    rewrite (disconnect_outside w Hw). simpl. rewrite Hres.
    f_equal. by destruct l. }
  split; [apply disconnect_state|]. split; [apply disconnect_live|].
  simpl. rewrite (disconnect_outside w Hw). simpl.
  split; [done|].
  unfold LilaServer.getState. rewrite Hst, disconnect_state.
  by destruct l.
Qed.


End Session.

Lemma reachable_run JSON_parse ops w w' :
  reachable JSON_parse w -> run JSON_parse ops w = Some w' ->
  reachable JSON_parse w'.
Proof.
  revert w. induction ops as [|op ops IH]; intros w Hr; simpl.
  - by intros [= <-].
  - destruct (step JSON_parse op w) as [w1|] eqn:Hstep; [|done].
    apply IH. by apply (reach_step _ op w).
Qed.

Lemma reachable_bar_online :
  reachable Scenario.unparsed ScenarioSession.bar_online.
Proof.
  apply (reachable_run _ ScenarioSession.opening ScenarioSession.bar);
    [apply reach_create|vm_compute; reflexivity].
Qed.

(** X19 on a session whose launcher is started and whose client is
    connected. *)
Lemma status_bar_in_sync_witness :
  reachable Scenario.unparsed ScenarioSession.bar_online /\
  text (outside ScenarioSession.bar_online) = "$(check) Lila" /\
  tooltip (outside ScenarioSession.bar_online) = Some "Lila: Connected".
Proof.
  split; [exact reachable_bar_online|].
  exact (status_bar_in_sync Scenario.unparsed ScenarioSession.bar_online
           reachable_bar_online).
Defined.

(** X20 on the same session. *)
Lemma stopServer_releases_witness :
  reachable Scenario.unparsed ScenarioSession.bar_online /\
  state (stopServer ScenarioSession.bar_online) = disconnected /\
  live (stopServer ScenarioSession.bar_online) = None /\
  tooltip (outside (stopServer ScenarioSession.bar_online))
  = Some "Lila: Disconnected".
Proof.
  split; [exact reachable_bar_online|].
  destruct (stopServer_releases Scenario.unparsed ScenarioSession.bar_online
              reachable_bar_online) as (Hs & Hl & _ & _ & _ & _ & _ & Ht).
  split; [exact Hs|]. split; [exact Hl|exact Ht].
Defined.

(** X21 on the same session, the launch succeeding. *)
Lemma restartServer_bar_witness :
  reachable Scenario.unparsed ScenarioSession.bar_online /\
  exists w',
    restartServer LilaServer.Launched true ScenarioSession.bar_online
    = (w', true, true) /\
    state w' = disconnected /\
    tooltip (outside w') = Some "Lila: Server Running".
Proof.
  split; [exact reachable_bar_online|].
  destruct (restartServer_bar Scenario.unparsed ScenarioSession.bar_online
              LilaServer.Launched true reachable_bar_online)
    as (w' & Hr & Hs & _ & _ & Ht).
  exists w'. split; [exact Hr|]. split; [exact Hs|exact Ht].
Defined.


End BarFacts.
